(** * Request/response correlation over push/pull sockets

    A shallow embedding of [CommunicationClient.ts], [CommunicationServer.ts]
    and [types.ts], and the properties of the correlation layer: id
    assignment, pending-call bookkeeping, the timeout sweeper, close, and the
    server dispatcher.

    Conventions of the embedding.
    - A JavaScript [number] holding a timestamp, a port, an id or a timeout
      is an integer of [Z]; [x || d] on an optional number is [orDefault].
    - A [Map] is an insertion-ordered association list ([JsMap]).
    - A method of a class is a state transformer on the instance and its
      surroundings (the promise heap, the clock, the trace of transport
      effects).  One application of such a transformer is one uninterrupted
      turn of the event loop: the source methods contain no [await], except
      the server listener, which is split at its [await].
    - [JSON.stringify]/[JSON.parse] are not modelled: a payload on the wire
      is the record it serialises, and an inbound payload either fails to
      parse or parses to a record of the type the listener annotates. *)

From Stdlib Require Import ZArith Lia String List Bool.
From stdpp Require Import base decidable option list strings pretty relations.
Import ListNotations.
Open Scope string_scope.
Open Scope list_scope.
Open Scope Z_scope.

(** ** JavaScript values and errors *)

(** The values that travel as [params] entries and as handler results. *)
#[local] Set Warnings "-register-all".
Inductive Value :=
| VUndefined
| VNull
| VBool (b : bool)
| VNum (n : Z)
| VStr (s : string)
| VArr (items : list Value)
| VObj (fields : list (string * Value)).

(** [new Error(msg)], [new ClosedError()], [new TimeoutError(msg)]. *)
Inductive Error :=
| Err (message : string)
| ClosedError
| TimeoutError (message : string).

(** [x || d] for an optional number: [undefined] and [0] are falsy. *)
Definition orDefault (x : option Z) (d : Z) : Z :=
  match x with
  | Some v => if v =? 0 then d else v
  | None => d
  end.

(** ** types.ts *)

Inductive TSupportedProtocols := tcp | ipc.

Definition protocolName (p : TSupportedProtocols) : string :=
  match p with tcp => "tcp" | ipc => "ipc" end.

(** [TParams & object]: the optional [timeout] and the other own fields. *)
Record TParams := mkParams {
  timeout : option Z;
  entries : list (string * Value)
}.

Record TRequestMessage := mkRequest {
  req_id : Z;
  req_createdAt : Z;
  req_action : string;
  req_params : TParams;
  req_responseWanted : bool;
  req_expiresAt : Z;
  req_sourceUri : string
}.

Record TResponseMessage := mkResponse {
  res_data : Value;
  res_sourceUri : option string;
  res_id : Z
}.

(** What [push.send] is given. *)
Inductive Payload :=
| Request (m : TRequestMessage)
| Response (m : TResponseMessage).

(** ** Map, in insertion order *)

Module JsMap.
Section Ops.
Context {K V : Type} `{EqDecision K}.

Definition t := list (K * V).

Definition empty : t := [].

Fixpoint get (k : K) (m : t) : option V :=
  match m with
  | [] => None
  | (k', v) :: m' => if decide (k' = k) then Some v else get k m'
  end.

(** [set] keeps the position of a key that is already present. *)
Fixpoint set (k : K) (v : V) (m : t) : t :=
  match m with
  | [] => [(k, v)]
  | (k', v') :: m' =>
      if decide (k' = k) then (k, v) :: m' else (k', v') :: set k v m'
  end.

Fixpoint delete (k : K) (m : t) : t :=
  match m with
  | [] => []
  | (k', v) :: m' =>
      if decide (k' = k) then delete k m' else (k', v) :: delete k m'
  end.

Definition keys (m : t) : list K := map fst m.
Definition values (m : t) : list V := map snd m.
Definition size (m : t) : nat := length m.
End Ops.
Arguments t : clear implicits.
End JsMap.

(** ** Sockets, promises, timers and the trace of effects *)

Inductive SocketType := push | pull.

(** A socket after [socket(type)], [identity = ...] and [connect]/[bindSync]. *)
Record Socket := mkSocket {
  socketType : SocketType;
  identity : string;
  endpoint : string
}.

(** A promise is named by its allocation index in the promise heap. *)
Abbreviation Promise := nat.
Abbreviation Timer := nat.

Inductive PromiseState :=
| Pending
| Fulfilled (v : Value)
| Rejected (e : Error).

Inductive Effect :=
| Bound (s : Socket)
| Listening (s : Socket)
| Connected (s : Socket)
| Sent (s : Socket) (p : Payload)
| Closed (s : Socket)
| TimerSet (t : Timer) (delay : Z)
| TimerCleared (t : Timer)
| Emitted (event : string)
| HandlerCalled (err : option Error) (data : option TRequestMessage)
| ResolveCalled (p : Promise) (v : Value)
| RejectCalled (p : Promise) (e : Error).

(** Settling a promise: only a pending promise changes state. *)
Definition settle (p : Promise) (s : PromiseState) (heap : list PromiseState)
  : list PromiseState :=
  match heap !! p with
  | Some Pending => <[p := s]> heap
  | _ => heap
  end.

(** ** State transformers *)

Definition State (W A : Type) : Type := W -> A * W.

Definition ret {W A} (a : A) : State W A := fun w => (a, w).

Definition bind {W A B} (c : State W A) (k : A -> State W B) : State W B :=
  fun w => let (a, w') := c w in k a w'.

Definition gets {W A} (f : W -> A) : State W A := fun w => (f w, w).
Definition modify {W} (f : W -> W) : State W unit := fun w => (tt, f w).
Definition exec {W A} (c : State W A) (w : W) : W := snd (c w).
Definition eval {W A} (c : State W A) (w : W) : A := fst (c w).

Declare Scope state_scope.
Delimit Scope state_scope with state.
Notation "'let*' x ':=' c 'in' k" := (bind c (fun x => k))
  (at level 10, x name, c at level 100, k at level 200) : state_scope.
Notation "c '>>' k" := (bind c (fun _ => k))
  (at level 62, right associativity) : state_scope.

(** [list.forEach(f)] *)
Fixpoint forEach {W A} (l : list A) (f : A -> State W unit) : State W unit :=
  match l with
  | [] => ret tt
  | a :: l' => bind (f a) (fun _ => forEach l' f)
  end.

(** [list.map(f)] with an effectful [f], left to right. *)
Fixpoint mapM {W A B} (f : A -> State W B) (l : list A) : State W (list B) :=
  match l with
  | [] => ret []
  | a :: l' => bind (f a) (fun b => bind (mapM f l') (fun bs => ret (b :: bs)))
  end.

(** * getSystemHost.ts *)

Module getSystemHost.
(** [s.replace(/\s/gi, '')] *)
Fixpoint removeWhitespace (s : string) : string :=
  match s with
  | EmptyString => EmptyString
  | String a s' =>
      if Ascii.is_space a then removeWhitespace s'
      else String a (removeWhitespace s')
  end.

(** [hostnameOutput] is what [hostname -i] prints, [osHostname] what
    [os.hostname()] returns. *)
Definition getSystemHost (hostnameOutput osHostname : string) : string :=
  let host := removeWhitespace hostnameOutput in
  if String.prefix "127" host then osHostname else host.
End getSystemHost.

(** * CommunicationClient.ts *)

Module CommunicationClient.

Record TCallbackInformation := mkCallback {
  cb_createdAt : Z;
  cb_expiresAt : Z;
  cb_resolve : Promise;
  cb_reject : Promise;
  cb_action : string;
  cb_sourceUri : string
}.

Record TClientOptions := mkOptions {
  opt_bindPort : Z;
  opt_protocol : option TSupportedProtocols;
  opt_host : option string;
  opt_checkTimeoutsInterval : option Z;
  opt_defaultTimeout : option Z
}.

Definition MAX_ID : Z := 10000000.
Definition DEFAULT_TIMEOUT : Z := 250.
Definition DEFAULT_PROTOCOL : TSupportedProtocols := tcp.
Definition CHECK_TIMEOUTS_INTERVAL : Z := 100.
Definition MIN_PORT : Z := 1024.
Definition MAX_PORT : Z := 49151.

(** The fields of the class. *)
Record Client := mkClient {
  bindPort : Z;
  protocol : TSupportedProtocols;
  checkTimeoutsInterval : Z;
  defaultTimeout : Z;
  host : option string;
  bindSocket : option Socket;
  nextId : Z;
  callbackStorage : JsMap.t Z TCallbackInformation;
  socketStorage : JsMap.t string Socket;
  checkTimeoutsId : option Timer
}.

(** The instance and what it acts on: the promise heap, the timers handed
    out, the number of [Date.now()] readings taken, the effects so far
    (oldest first). *)
Record World := mkWorld {
  self : Client;
  promises : list PromiseState;
  timers : nat;
  reads : nat;
  trace : list Effect
}.

Definition withSelf (f : Client -> Client) (w : World) : World :=
  mkWorld (f (self w)) (promises w) (timers w) (reads w) (trace w).

Definition setHost (h : option string) (c : Client) : Client :=
  mkClient (bindPort c) (protocol c) (checkTimeoutsInterval c) (defaultTimeout c)
    h (bindSocket c) (nextId c) (callbackStorage c) (socketStorage c)
    (checkTimeoutsId c).

Definition setBindSocket (s : option Socket) (c : Client) : Client :=
  mkClient (bindPort c) (protocol c) (checkTimeoutsInterval c) (defaultTimeout c)
    (host c) s (nextId c) (callbackStorage c) (socketStorage c)
    (checkTimeoutsId c).

Definition setNextId (n : Z) (c : Client) : Client :=
  mkClient (bindPort c) (protocol c) (checkTimeoutsInterval c) (defaultTimeout c)
    (host c) (bindSocket c) n (callbackStorage c) (socketStorage c)
    (checkTimeoutsId c).

Definition setCallbackStorage (m : JsMap.t Z TCallbackInformation) (c : Client)
  : Client :=
  mkClient (bindPort c) (protocol c) (checkTimeoutsInterval c) (defaultTimeout c)
    (host c) (bindSocket c) (nextId c) m (socketStorage c) (checkTimeoutsId c).

Definition setSocketStorage (m : JsMap.t string Socket) (c : Client) : Client :=
  mkClient (bindPort c) (protocol c) (checkTimeoutsInterval c) (defaultTimeout c)
    (host c) (bindSocket c) (nextId c) (callbackStorage c) m (checkTimeoutsId c).

Definition setCheckTimeoutsId (t : option Timer) (c : Client) : Client :=
  mkClient (bindPort c) (protocol c) (checkTimeoutsInterval c) (defaultTimeout c)
    (host c) (bindSocket c) (nextId c) (callbackStorage c) (socketStorage c) t.

(** An inbound buffer: what [JSON.parse(message.toString())] yields ([None]
    when it throws) and [message.length]. *)
Record Message := mkMessage {
  JSON_parse : option TResponseMessage;
  msg_length : Z
}.

(** [messageObject] after [messageObject['size'] = message.length], with the
    fields in the order the server writes them. *)
Definition sized (messageObject : TResponseMessage) (size : Z) : Value :=
  VObj ([("id", VNum (res_id messageObject));
         ("data", res_data messageObject)]
        ++ match res_sourceUri messageObject with
           | Some uri => [("sourceUri", VStr uri)]
           | None => []
           end
        ++ [("size", VNum size)]).

(** [value.name] on an object. *)
Definition field (name : string) (value : Value) : Value :=
  match value with
  | VObj fields => default VUndefined (JsMap.get name fields)
  | _ => VUndefined
  end.

Local Open Scope state_scope.

Section Methods.
(** The surroundings the class reads: [process.pid], the output of
    [hostname -i], [os.hostname()], and the successive readings of
    [Date.now()]. *)
Variable pid : Z.
Variable hostnameOutput : string.
Variable osHostname : string.
Variable clock : nat -> Z.

(** *** Primitive effects *)

Definition perform (e : Effect) : State World unit :=
  fun w => (tt, mkWorld (self w) (promises w) (timers w) (reads w)
                  (trace w ++ [e])).

Definition Date_now : State World Z :=
  fun w => (clock (reads w),
            mkWorld (self w) (promises w) (timers w) (S (reads w)) (trace w)).

Definition setTimeout (delay : Z) : State World Timer :=
  fun w => (timers w,
            mkWorld (self w) (promises w) (S (timers w)) (reads w)
              (trace w ++ [TimerSet (timers w) delay])).

Definition clearTimeout (t : Timer) : State World unit :=
  perform (TimerCleared t).

(** [new Promise(...)]: the executor receives the new promise's resolvers. *)
Definition newPromise : State World Promise :=
  fun w => (length (promises w),
            mkWorld (self w) (promises w ++ [Pending]) (timers w) (reads w)
              (trace w)).

Definition resolve (p : Promise) (v : Value) : State World unit :=
  fun w => (tt, mkWorld (self w) (settle p (Fulfilled v) (promises w))
                  (timers w) (reads w) (trace w ++ [ResolveCalled p v])).

Definition reject (p : Promise) (e : Error) : State World unit :=
  fun w => (tt, mkWorld (self w) (settle p (Rejected e) (promises w))
                  (timers w) (reads w) (trace w ++ [RejectCalled p e])).

Definition this {A} (f : Client -> A) : State World A :=
  gets (fun w => f (self w)).

Definition update (f : Client -> Client) : State World unit :=
  modify (withSelf f).

(** [map.forEach(f)]: entries are visited in insertion order, and an entry
    deleted before its turn is skipped.  (No callback of this class adds
    entries while iterating.) *)
Fixpoint forEachKey {K V} `{EqDecision K} (sel : Client -> JsMap.t K V)
    (ks : list K) (f : V -> K -> State World unit) : State World unit :=
  match ks with
  | [] => ret tt
  | k :: ks' =>
      let* m := this sel in
      match JsMap.get k m with
      | Some v => f v k >> forEachKey sel ks' f
      | None => forEachKey sel ks' f
      end
  end.

Definition Map_forEach {K V} `{EqDecision K} (sel : Client -> JsMap.t K V)
    (f : V -> K -> State World unit) : State World unit :=
  let* m := this sel in forEachKey sel (JsMap.keys m) f.

Definition getSystemHost : string :=
  getSystemHost.getSystemHost hostnameOutput osHostname.

(** *** The class *)

Definition validateOptions (bindPort : Z) (host : option string)
    (checkTimeoutsInterval defaultTimeout : Z) : option Error :=
  if (bindPort <? MIN_PORT) || (bindPort >? MAX_PORT) then
    Some (Err ("Port is out of range: " +:+ pretty bindPort))
  else if match host with
          | Some h => bool_decide (String.index 0 "://" h <> None)
          | None => false
          end then
    Some (Err ("Hostname cannot contain protocol, format is hostname:port (but got "
               +:+ default "" host +:+ ")"))
  else if defaultTimeout <? 2 then
    Some (Err ("Timeout cannot be set to value smaller then 2: "
               +:+ pretty defaultTimeout))
  else if checkTimeoutsInterval <? 1 then
    Some (Err ("Timeout check cannot be set to value smaller then 1: "
               +:+ pretty defaultTimeout))
  else None.

(** [new CommunicationClient(options)]: the error thrown, or the instance
    with its first sweep scheduled. *)
Definition constructor (options : TClientOptions) : Error + World :=
  let protocol := default DEFAULT_PROTOCOL (opt_protocol options) in
  let defaultTimeout := orDefault (opt_defaultTimeout options) DEFAULT_TIMEOUT in
  let checkTimeoutsInterval :=
    orDefault (opt_checkTimeoutsInterval options) CHECK_TIMEOUTS_INTERVAL in
  match validateOptions (opt_bindPort options) (opt_host options)
          checkTimeoutsInterval defaultTimeout with
  | Some err => inl err
  | None =>
      let c := mkClient (opt_bindPort options) protocol checkTimeoutsInterval
                 defaultTimeout (opt_host options) None 0 JsMap.empty
                 JsMap.empty None in
      inr (exec (let* t := setTimeout checkTimeoutsInterval in
                 update (setCheckTimeoutsId (Some t)))
             (mkWorld c [] 0 0 []))
  end.

Definition getHost : State World string :=
  let* h := this host in
  match h with
  | Some h => ret h
  | None =>
      update (setHost (Some getSystemHost)) >>
      ret getSystemHost
  end.

Definition getBindSocketIdentity : string := "bind" +:+ pretty pid.

Definition getClientSocketIdentity : string := "client" +:+ pretty pid.

Definition getBindUri : State World string :=
  let* protocol := this protocol in
  let* host := getHost in
  let* bindPort := this bindPort in
  ret (protocolName protocol +:+ "://" +:+ host +:+ ":" +:+ pretty bindPort).

Definition getUri (address : string) : State World string :=
  let* protocol := this protocol in
  ret (protocolName protocol +:+ "://" +:+ address).

Definition getBindSocket : State World Socket :=
  let* uri := getBindUri in
  let bindSocket := mkSocket pull getBindSocketIdentity uri in
  perform (Bound bindSocket) >>
  ret bindSocket.

(** The listener registered by [bindInternal]. *)
Definition onMessage (message : Message) : State World unit :=
  match JSON_parse message with
  | None => perform (Emitted "error")
  | Some messageObject =>
      let messageObject' := sized messageObject (msg_length message) in
      let* possibleCallback :=
        this (fun c => JsMap.get (res_id messageObject) (callbackStorage c)) in
      match possibleCallback with
      | None => ret tt
      | Some possibleCallback =>
          update (fun c => setCallbackStorage
                    (JsMap.delete (res_id messageObject) (callbackStorage c)) c) >>
          resolve (cb_resolve possibleCallback) messageObject'
      end
  end.

Definition bindInternal : State World unit :=
  let* s := getBindSocket in
  update (setBindSocket (Some s)) >>
  perform (Listening s).

Definition getNextId : State World Z :=
  let* nextId := this nextId in
  update (setNextId (nextId + 1)) >>
  let* incremented := this CommunicationClient.nextId in
  (if incremented >? MAX_ID then update (setNextId 0) else ret tt) >>
  ret nextId.

Definition getTimeout (params : TParams) : State World Z :=
  let* defaultTimeout := this defaultTimeout in
  ret (orDefault (timeout params) defaultTimeout).

Definition createPushSocket (uri : string) : State World Socket :=
  let pushSocket := mkSocket push getClientSocketIdentity uri in
  perform (Connected pushSocket) >>
  update (fun c => setSocketStorage (JsMap.set uri pushSocket (socketStorage c)) c) >>
  ret pushSocket.

Definition getPushSocket (uri : string) : State World Socket :=
  let* cached := this (fun c => JsMap.get uri (socketStorage c)) in
  match cached with
  | Some s => ret s
  | None => createPushSocket uri
  end.

Definition sendRaw (address action : string) (params : TParams)
    (responseWanted : bool) : State World TRequestMessage :=
  let* id := getNextId in
  let* createdAt := Date_now in
  let* timeout := getTimeout params in
  let expiresAt := createdAt + timeout in
  let* localUri := getBindUri in
  let message :=
    mkRequest id createdAt action params responseWanted expiresAt localUri in
  let* bindSocket := this bindSocket in
  (match bindSocket with
   | None => if req_responseWanted message then bindInternal else ret tt
   | Some _ => ret tt
   end) >>
  let* uri := getUri address in
  let* pushSocket := getPushSocket uri in
  perform (Sent pushSocket (Request message)) >>
  ret message.

Definition fire (address action : string) (params : TParams)
  : State World unit :=
  sendRaw address action params false >> ret tt.

Definition fireMulti (addresses : list string) (action : string)
    (params : TParams) : State World unit :=
  forEach addresses (fun uri => fire uri action params).

(** The promise returned stands for the one the [async] wrapper returns,
    which adopts its state. *)
Definition send (address action : string) (params : TParams)
  : State World Promise :=
  let* message := sendRaw address action params true in
  let* promise := newPromise in
  update (fun c => setCallbackStorage
            (JsMap.set (req_id message)
               (mkCallback (req_createdAt message) (req_expiresAt message)
                  promise promise action (req_sourceUri message))
               (callbackStorage c)) c) >>
  ret promise.

(** The result is the list [Promise.all] joins. *)
Definition sendMulti (addresses : list string) (action : string)
    (params : TParams) (responseWanted : bool) : State World (list Promise) :=
  mapM (fun uri => send uri action params) addresses.

Definition close : State World unit :=
  let* bindSocket := this bindSocket in
  (match bindSocket with
   | Some s => perform (Closed s)
   | None => ret tt
   end) >>
  let* checkTimeoutsId := this checkTimeoutsId in
  (match checkTimeoutsId with
   | Some t => clearTimeout t
   | None => ret tt
   end) >>
  Map_forEach socketStorage (fun pushSocket _ => perform (Closed pushSocket)) >>
  update (setSocketStorage JsMap.empty) >>
  Map_forEach callbackStorage
    (fun callback _ => reject (cb_reject callback) ClosedError).

Definition checkTimeouts : State World unit :=
  let* time := Date_now in
  Map_forEach callbackStorage
    (fun callback id =>
       if cb_expiresAt callback >? time then ret tt
       else
         reject (cb_reject callback) (TimeoutError "Timeout error") >>
         update (fun c => setCallbackStorage
                   (JsMap.delete id (callbackStorage c)) c)) >>
  let* interval := this checkTimeoutsInterval in
  let* t := setTimeout interval in
  update (setCheckTimeoutsId (Some t)).
End Methods.

End CommunicationClient.

(** * CommunicationServer.ts *)

Module CommunicationServer.

Record TServerOptions := mkOptions {
  opt_protocol : option TSupportedProtocols;
  opt_host : option string;
  opt_port : Z
}.

Definition MIN_PORT : Z := 1024.
Definition MAX_PORT : Z := 49151.
Definition DEFAULT_PROTOCOL : TSupportedProtocols := tcp.

(** What [await] yields on the value a handler returned. *)
Inductive Awaited :=
| Returns (v : Value)
| Throws (e : Error).

(** [onRequest(err)] and [onRequest(undefined, data)]. *)
Definition Handler : Type := option Error -> option TRequestMessage -> Awaited.

Record Server := mkServer {
  port : Z;
  protocol : TSupportedProtocols;
  listenSocket : option Socket;
  host : option string;
  onRequest : option Handler;
  socketStorage : JsMap.t string Socket
}.

Record World := mkWorld {
  self : Server;
  trace : list Effect
}.

Record Message := mkMessage {
  JSON_parse : Error + TRequestMessage
}.

Local Open Scope state_scope.

Section Methods.
Variable pid : Z.
Variable hostnameOutput : string.
Variable osHostname : string.

Definition perform (e : Effect) : State World unit :=
  fun w => (tt, mkWorld (self w) (trace w ++ [e])).

Definition this {A} (f : Server -> A) : State World A :=
  gets (fun w => f (self w)).

Definition update (f : Server -> Server) : State World unit :=
  modify (fun w => mkWorld (f (self w)) (trace w)).

Definition validateOptions (port : Z) (host : option string) : option Error :=
  if (port <? MIN_PORT) || (port >? MAX_PORT) then
    Some (Err ("Port is out of range: " +:+ pretty port))
  else if match host with
          | Some h => bool_decide (String.index 0 "://" h <> None)
          | None => false
          end then
    Some (Err ("Hostname cannot contain protocol, format is hostname:port (but got "
               +:+ default "" host +:+ ")"))
  else None.

Definition constructor (options : TServerOptions) : Error + World :=
  let protocol := default DEFAULT_PROTOCOL (opt_protocol options) in
  match validateOptions (opt_port options) (opt_host options) with
  | Some err => inl err
  | None =>
      inr (mkWorld (mkServer (opt_port options) protocol None (opt_host options)
                      None JsMap.empty) [])
  end.

Definition getHost : State World string :=
  let* h := this host in
  match h with
  | Some h => ret h
  | None =>
      let resolved := getSystemHost.getSystemHost hostnameOutput osHostname in
      update (fun s => mkServer (port s) (protocol s) (listenSocket s)
                         (Some resolved) (onRequest s) (socketStorage s)) >>
      ret resolved
  end.

Definition getListenSocketIdentity : string := "server" +:+ pretty pid.

Definition getPushSocketIdentity : string := "bind" +:+ pretty pid.

Definition getListenUri : State World string :=
  let* protocol := this protocol in
  let* host := getHost in
  let* port := this port in
  ret (protocolName protocol +:+ "://" +:+ host +:+ ":" +:+ pretty port).

Definition getListenSocket : State World Socket :=
  let* uri := getListenUri in
  let listenSocket := mkSocket pull getListenSocketIdentity uri in
  perform (Bound listenSocket) >>
  ret listenSocket.

Definition createPushSocket (uri : string) : State World Socket :=
  let pushSocket := mkSocket push getPushSocketIdentity uri in
  perform (Connected pushSocket) >>
  update (fun s => mkServer (port s) (protocol s) (listenSocket s) (host s)
                     (onRequest s) (JsMap.set uri pushSocket (socketStorage s))) >>
  ret pushSocket.

Definition getPushSocket (uri : string) : State World Socket :=
  let* cached := this (fun s => JsMap.get uri (socketStorage s)) in
  match cached with
  | Some s => ret s
  | None => createPushSocket uri
  end.

Definition sendResponse (uri : string) (message : TResponseMessage)
  : State World unit :=
  let* pushSocket := getPushSocket uri in
  perform (Sent pushSocket (Response message)).

(** [this.onRequest(err, data)].  The listener exists only once [listen]
    has stored a handler, so the [None] branch is never taken by it. *)
Definition callOnRequest (err : option Error) (data : option TRequestMessage)
  : State World (option Awaited) :=
  let* handler := this onRequest in
  match handler with
  | Some handler =>
      perform (HandlerCalled err data) >>
      ret (Some (handler err data))
  | None => ret None
  end.

(** The listener registered by [listenInternal], up to its [await]: the
    result is the request and the handler's result still to be awaited,
    when a response is wanted. *)
Definition onMessage (message : Message)
  : State World (option (TRequestMessage * Awaited)) :=
  match JSON_parse message with
  | inl err => callOnRequest (Some err) None >> ret None
  | inr messageObject =>
      let* resultPromise := callOnRequest None (Some messageObject) in
      if negb (req_responseWanted messageObject) then ret None
      else
        match resultPromise with
        | Some resultPromise => ret (Some (messageObject, resultPromise))
        | None => ret None
        end
  end.

(** The listener from its [await] on, run in a later turn. *)
Definition afterAwait (messageObject : TRequestMessage) (resultPromise : Awaited)
  : State World unit :=
  match resultPromise with
  | Throws _ => ret tt
  | Returns data =>
      let* listenUri := getListenUri in
      sendResponse (req_sourceUri messageObject)
        (mkResponse data (Some listenUri) (req_id messageObject))
  end.

Definition listenInternal : State World unit :=
  let* s := getListenSocket in
  update (fun srv => mkServer (port srv) (protocol srv) (Some s) (host srv)
                       (onRequest srv) (socketStorage srv)) >>
  perform (Listening s).

(** [listen(onRequest)]: the error thrown, if any. *)
Definition listen (handler : Handler) : State World (option Error) :=
  let* bound := this listenSocket in
  match bound with
  | Some _ =>
      let* port := this port in
      ret (Some (Err ("Already listening on port " +:+ pretty port)))
  | None =>
      update (fun s => mkServer (port s) (protocol s) (listenSocket s) (host s)
                         (Some handler) (socketStorage s)) >>
      listenInternal >>
      ret None
  end.

Definition close : State World unit :=
  let* listenSocket := this listenSocket in
  match listenSocket with
  | Some s => perform (Closed s)
  | None => ret tt
  end.
End Methods.

End CommunicationServer.

(** * Definitions used to state the properties *)

Module Notions.
Import CommunicationClient.
Local Open Scope state_scope.

(** [n] successive draws from the Id Counter. *)
Fixpoint draws (n : nat) : State World (list Z) :=
  match n with
  | O => ret []
  | S n' =>
      let* id := getNextId in
      let* ids := draws n' in
      ret (id :: ids)
  end.

(** The sweeper's test, [!(callback.expiresAt > time)]. *)
Definition expired (time : Z) (callback : TCallbackInformation) : bool :=
  negb (cb_expiresAt callback >? time).

(** The shape shared by the two callbacks that fail Pending Calls (the
    sweeper's and [close]'s): reject the entries that satisfy [cond] with
    [e], and drop them from the store when [remove] is set. *)
Definition rejectWhen (cond : TCallbackInformation -> bool) (e : Error)
    (remove : bool) (callback : TCallbackInformation) (id : Z)
  : State World unit :=
  if cond callback then
    reject (cb_reject callback) e >>
    (if remove then
       update (fun c => setCallbackStorage
                 (JsMap.delete id (callbackStorage c)) c)
     else ret tt)
  else ret tt.

(** One step of [Map_forEach callbackStorage (rejectWhen cond e remove)], on
    key [k]. *)
Definition visit (cond : TCallbackInformation -> bool) (e : Error)
    (remove : bool) (k : Z) (w : World) : World :=
  match JsMap.get k (callbackStorage (self w)) with
  | Some callback => exec (rejectWhen cond e remove callback k) w
  | None => w
  end.

(** [close] up to its last statement: the listener, the sweeper's timer and
    the push sockets are released and the socket cache is cleared. *)
Definition closeTransport : State World unit :=
  let* bindSocket := this bindSocket in
  (match bindSocket with
   | Some s => perform (Closed s)
   | None => ret tt
   end) >>
  let* checkTimeoutsId := this checkTimeoutsId in
  (match checkTimeoutsId with
   | Some t => clearTimeout t
   | None => ret tt
   end) >>
  Map_forEach socketStorage (fun pushSocket _ => perform (Closed pushSocket)) >>
  update (setSocketStorage JsMap.empty).

(** Calls of a promise's [resolve] or [reject]. *)
Definition isSettlement (e : Effect) : bool :=
  match e with
  | ResolveCalled _ _ | RejectCalled _ _ => true
  | _ => false
  end.

(** The requests handed to push sockets, oldest first. *)
Fixpoint requestsSent (t : list Effect) : list TRequestMessage :=
  match t with
  | [] => []
  | Sent _ (Request m) :: t' => m :: requestsSent t'
  | _ :: t' => requestsSent t'
  end.

(** The expiry of request [m] built from [params] by client [c]: the
    caller's timeout when one was supplied and is not [0], the instance's
    default otherwise. *)
Definition expiryRule (params : TParams) (c : Client) (m : TRequestMessage)
  : Prop :=
  (forall t, timeout params = Some t -> t <> 0 ->
     req_expiresAt m = req_createdAt m + t)
  /\ (timeout params = None \/ timeout params = Some 0 ->
      req_expiresAt m = req_createdAt m + defaultTimeout c).

(** The client's own listening URI, [protocol://host:bindPort], with the
    system host when none was configured. *)
Definition bindUri (hostnameOutput osHostname : string) (c : Client) : string :=
  protocolName (protocol c) +:+ "://" +:+
  default (getSystemHost.getSystemHost hostnameOutput osHostname) (host c) +:+
  ":" +:+ pretty (bindPort c).

(** The server's own listening URI, [protocol://host:port]. *)
Definition listenUri (hostnameOutput osHostname : string)
    (s : CommunicationServer.Server) : string :=
  protocolName (CommunicationServer.protocol s) +:+ "://" +:+
  default (getSystemHost.getSystemHost hostnameOutput osHostname)
    (CommunicationServer.host s) +:+
  ":" +:+ pretty (CommunicationServer.port s).
End Notions.

(** * A concrete client and server, for the examples *)

Module Scenario.
Import CommunicationClient.

Definition pid : Z := 42.
Definition hostnameOutput : string := "10.0.0.1 ".
Definition osHostname : string := "node-a".
Definition clock (n : nat) : Z := 1000 + Z.of_nat n.

Definition options : TClientOptions := mkOptions 5000 None None None None.

(** The client [new CommunicationClient({bindPort: 5000})] builds. *)
Definition fresh : World :=
  mkWorld (mkClient 5000 tcp 100 250 None None 0 [] [] (Some 0%nat))
    [] 1 0 [TimerSet 0%nat 100].

(** The same client once its counter has reached the ceiling. *)
Definition atCeiling : World := withSelf (setNextId MAX_ID) fresh.

Definition zeroTimeoutOptions : TClientOptions :=
  mkOptions 5000 None None None (Some 0).

Definition oneTimeoutOptions : TClientOptions :=
  mkOptions 5000 None None None (Some 1).

Definition echoParams : TParams := mkParams None [("value", VNum 7)].

Definition zeroTimeoutParams : TParams := mkParams (Some 0) [].

Definition shortTimeoutParams : TParams := mkParams (Some 40) [].

Definition serverAddress : string := "10.0.0.2:6000".

(** A server at that address whose handler returns [params.value]. *)
Definition serverOptions : CommunicationServer.TServerOptions :=
  CommunicationServer.mkOptions None (Some "10.0.0.2") 6000.

Definition echo : CommunicationServer.Handler :=
  fun _ data =>
    match data with
    | Some request =>
        CommunicationServer.Returns
          (default VUndefined (JsMap.get "value" (entries (req_params request))))
    | None => CommunicationServer.Returns VUndefined
    end.

Definition serverFresh : CommunicationServer.World :=
  CommunicationServer.mkWorld
    (CommunicationServer.mkServer 6000 tcp None (Some "10.0.0.2") None []) [].

Definition serverListening : CommunicationServer.World :=
  exec (CommunicationServer.listen pid hostnameOutput osHostname echo)
    serverFresh.

(** The client after [send(serverAddress, "echo", {value: 7})], the promise
    it returned and the request it transmitted. *)
Definition afterSend : World :=
  exec (send pid hostnameOutput osHostname clock serverAddress "echo" echoParams)
    fresh.

Definition echoPromise : Promise :=
  eval (send pid hostnameOutput osHostname clock serverAddress "echo" echoParams)
    fresh.

Definition echoRequest : TRequestMessage :=
  mkRequest 0 1000 "echo" echoParams true 1250 "tcp://10.0.0.1:5000".

(** The server's reply to it, and the buffer that carries it. *)
Definition echoResponse : TResponseMessage :=
  mkResponse (VNum 7) (Some "tcp://10.0.0.2:6000") 0.

Definition echoReply : Message := mkMessage (Some echoResponse) 52.

(** The request a [send] with [{timeout: 0}] builds on the fresh client. *)
Definition zeroTimeoutRequest : TRequestMessage :=
  eval (sendRaw pid hostnameOutput osHostname clock serverAddress "echo"
          zeroTimeoutParams true) fresh.

(** The client closed while the echo call is pending. *)
Definition closedWhilePending : World := exec close afterSend.

(** The server's buffer for [echoRequest]. *)
Definition echoDelivery : CommunicationServer.Message :=
  CommunicationServer.mkMessage (inr echoRequest).
End Scenario.

(** * Notions for the rest of the two classes *)

Module Coverage.
Import CommunicationClient.

(** A cache of outbound channels as [getPushSocket] builds it: one entry per
    destination, each a push socket with the owner's identity, connected to
    the URI it is filed under. *)
Definition cacheOk (identity : string) (m : JsMap.t string Socket) : Prop :=
  NoDup (JsMap.keys m)
  /\ forall uri s, JsMap.get uri m = Some s -> s = mkSocket push identity uri.

(** Every call in the store is awaited: its two resolvers belong to one
    promise, that promise is pending, and no other call shares it. *)
Definition awaiting (w : World) : Prop :=
  (forall id callback,
     JsMap.get id (callbackStorage (self w)) = Some callback ->
     cb_resolve callback = cb_reject callback
     /\ promises w !! cb_reject callback = Some Pending)
  /\ (forall id1 id2 callback1 callback2,
        JsMap.get id1 (callbackStorage (self w)) = Some callback1 ->
        JsMap.get id2 (callbackStorage (self w)) = Some callback2 ->
        cb_reject callback1 = cb_reject callback2 -> id1 = id2).

(** The effects that set up the inbound listener. *)
Definition isBinding (e : Effect) : bool :=
  match e with
  | Bound _ | Listening _ => true
  | _ => false
  end.

(** The effects that reach a peer: connecting to one and sending to one. *)
Definition isOutbound (e : Effect) : bool :=
  match e with
  | Connected _ | Sent _ _ => true
  | _ => false
  end.

(** The host a client reports once resolved. *)
Definition resolvedHost (hostnameOutput osHostname : string) (c : Client)
  : string :=
  default (getSystemHost.getSystemHost hostnameOutput osHostname) (host c).



(** The socket [getPushSocket uri] hands out on cache [m]: the cached one, or
    a new one connected to [uri]. *)
Definition acquired (identity uri : string) (m : JsMap.t string Socket)
  : Socket :=
  default (mkSocket push identity uri) (JsMap.get uri m).

(** One turn of a server: a call of [listen] or [close], the arrival of a
    payload, or the resumption of a listener after its [await]. *)
Inductive serverStep (pid : Z) (hostnameOutput osHostname : string)
  : CommunicationServer.World -> CommunicationServer.World -> Prop :=
| server_listen handler w :
    serverStep pid hostnameOutput osHostname w
      (exec (CommunicationServer.listen pid hostnameOutput osHostname handler) w)
| server_close w :
    serverStep pid hostnameOutput osHostname w
      (exec CommunicationServer.close w)
| server_message message w :
    serverStep pid hostnameOutput osHostname w
      (exec (CommunicationServer.onMessage message) w)
| server_resume messageObject result w :
    serverStep pid hostnameOutput osHostname w
      (exec (CommunicationServer.afterAwait pid hostnameOutput osHostname
               messageObject result) w).

(** One turn of a client that has not been closed: a call of [send] or
    [fire], the arrival of a payload, or a run of the sweeper. *)
Inductive clientRun (pid : Z) (hostnameOutput osHostname : string)
    (clock : nat -> Z) : World -> World -> Prop :=
| client_send address action params w :
    clientRun pid hostnameOutput osHostname clock w
      (exec (send pid hostnameOutput osHostname clock address action params) w)
| client_fire address action params w :
    clientRun pid hostnameOutput osHostname clock w
      (exec (fire pid hostnameOutput osHostname clock address action params) w)
| client_message message w :
    clientRun pid hostnameOutput osHostname clock w (exec (onMessage message) w)
| client_sweep w :
    clientRun pid hostnameOutput osHostname clock w
      (exec (checkTimeouts clock) w).

(** One turn of a client: one of the above, or a call of [close]. *)
Inductive clientStep (pid : Z) (hostnameOutput osHostname : string)
    (clock : nat -> Z) : World -> World -> Prop :=
| client_run w w' :
    clientRun pid hostnameOutput osHostname clock w w' ->
    clientStep pid hostnameOutput osHostname clock w w'
| client_close w :
    clientStep pid hostnameOutput osHostname clock w (exec close w).

(** The pull socket [bindInternal] binds for client [c]. *)
Definition listenerOf (pid : Z) (hostnameOutput osHostname : string)
    (c : Client) : Socket :=
  mkSocket pull (getBindSocketIdentity pid)
    (Notions.bindUri hostnameOutput osHostname c).

(** The destination URI of [address] for client [c]. *)
Definition uriOf (address : string) (c : Client) : string :=
  protocolName (protocol c) +:+ "://" +:+ address.

(** The counter after a draw. *)
Definition nextIdAfter (c : Client) : Z :=
  if nextId c + 1 >? MAX_ID then 0 else nextId c + 1.

(** What a turn from [w] to [w'] may do to the configuration, the counter,
    the outbound cache and the listener: the configuration and the client's
    own URI stay; the counter stays or makes one draw; the cache stays, is
    emptied, or gains one push socket for a destination it had none for;
    the listener stays, or is bound at the client's URI when there was
    none. *)
Definition stepSummary (pid : Z) (hostnameOutput osHostname : string)
    (w w' : World) : Prop :=
  (bindPort (self w') = bindPort (self w)
   /\ protocol (self w') = protocol (self w)
   /\ checkTimeoutsInterval (self w') = checkTimeoutsInterval (self w)
   /\ defaultTimeout (self w') = defaultTimeout (self w)
   /\ Notions.bindUri hostnameOutput osHostname (self w') =
        Notions.bindUri hostnameOutput osHostname (self w))
  /\ (nextId (self w') = nextId (self w)
      \/ nextId (self w') = nextIdAfter (self w))
  /\ (socketStorage (self w') = socketStorage (self w)
      \/ socketStorage (self w') = JsMap.empty
      \/ exists uri,
           JsMap.get uri (socketStorage (self w)) = None
           /\ socketStorage (self w') =
                JsMap.set uri (mkSocket push (getClientSocketIdentity pid) uri)
                  (socketStorage (self w)))
  /\ ((bindSocket (self w') = bindSocket (self w)
       /\ filter isBinding (trace w') = filter isBinding (trace w))
      \/ (bindSocket (self w) = None
          /\ bindSocket (self w') =
               Some (listenerOf pid hostnameOutput osHostname (self w))
          /\ filter isBinding (trace w') =
               filter isBinding (trace w)
               ++ [Bound (listenerOf pid hostnameOutput osHostname (self w));
                   Listening (listenerOf pid hostnameOutput osHostname (self w))])).

(** The echo client at a moment when the clock reads the call's expiry. *)
Definition echoDue : World :=
  mkWorld (self Scenario.afterSend) (promises Scenario.afterSend) 1 250 [].

End Coverage.

(** * Properties of the Map model *)

Module JsMapFacts.
Section Facts.
Context {K V : Type} `{EqDecision K}.
Implicit Types (m : JsMap.t K V) (k : K) (v : V).

Lemma get_delete k k' m :
  JsMap.get k (JsMap.delete k' m) =
  if decide (k' = k) then None else JsMap.get k m.
Proof.
  induction m as [|[k0 v0] m IH]; simpl.
  - by destruct (decide (k' = k)).
  - destruct (decide (k0 = k')) as [->|Hne]; simpl.
    + rewrite IH. destruct (decide (k' = k)); done.
    + rewrite IH. destruct (decide (k0 = k)) as [->|]; [|done].
      destruct (decide (k' = k)); congruence.
Qed.

Lemma get_delete_eq k m : JsMap.get k (JsMap.delete k m) = None.
Proof. rewrite get_delete. by destruct (decide (k = k)). Qed.

Lemma get_set k k' v m :
  JsMap.get k (JsMap.set k' v m) =
  if decide (k' = k) then Some v else JsMap.get k m.
Proof.
  induction m as [|[k0 v0] m IH]; simpl.
  - by destruct (decide (k' = k)).
  - destruct (decide (k0 = k')) as [->|Hne]; simpl.
    + destruct (decide (k' = k)); done.
    + rewrite IH. destruct (decide (k0 = k)) as [->|]; [|done].
      destruct (decide (k' = k)); congruence.
Qed.

Lemma get_set_eq k v m : JsMap.get k (JsMap.set k v m) = Some v.
Proof. rewrite get_set. by destruct (decide (k = k)). Qed.

Lemma get_Some_keys k v m : JsMap.get k m = Some v -> In k (JsMap.keys m).
Proof.
  induction m as [|[k0 v0] m IH]; simpl; [done|].
  destruct (decide (k0 = k)); auto.
Qed.
End Facts.
End JsMapFacts.

(** * Properties of the client *)

Module ClientProperties.
Import CommunicationClient Notions JsMapFacts.
Local Open Scope state_scope.

(** ** The Id Counter *)

Lemma getNextId_run w :
  getNextId w =
  (nextId (self w),
   withSelf (setNextId (if nextId (self w) + 1 >? MAX_ID then 0
                        else nextId (self w) + 1)) w).
Proof.
  destruct w as [c hp tm rd tr]; destruct c.
  unfold getNextId, bind, this, gets, update, modify, ret, withSelf; simpl.
  destruct (_ >? MAX_ID); reflexivity.
Qed.

Lemma draws_S n w :
  eval (draws (S n)) w =
  nextId (self w) :: eval (draws n) (exec getNextId w).
Proof.
  unfold eval, exec. simpl. unfold bind, ret.
  destruct (getNextId w) as [i w1] eqn:E.
  rewrite getNextId_run in E. injection E as <- <-.
  simpl. by destruct (draws n _).
Qed.

Lemma nextId_step w :
  0 <= nextId (self w) <= MAX_ID ->
  nextId (self (exec getNextId w)) =
    (if nextId (self w) =? MAX_ID then 0 else nextId (self w) + 1)
  /\ 0 <= nextId (self (exec getNextId w)) <= MAX_ID.
Proof.
  intros Hr. unfold exec. rewrite getNextId_run. simpl.
  unfold MAX_ID in *.
  destruct (Z.gtb_spec (nextId (self w) + 1) 10000000);
    destruct (Z.eqb_spec (nextId (self w)) 10000000); lia.
Qed.

(** Every id of [n] draws lies within [n] steps after the counter, going
    round the cycle [0..MAX_ID]. *)
Lemma draws_within n : forall w x,
  0 <= nextId (self w) <= MAX_ID ->
  In x (eval (draws n) w) ->
  (x - nextId (self w)) mod (MAX_ID + 1) < Z.of_nat n.
Proof.
  induction n as [|n IH]; intros w x Hr Hin.
  - destruct Hin.
  - rewrite draws_S in Hin. destruct Hin as [<-|Hin].
    + rewrite Z.sub_diag, Z.mod_0_l by (unfold MAX_ID; lia). lia.
    + destruct (nextId_step w Hr) as [Hstep Hr'].
      specialize (IH _ x Hr' Hin). rewrite Hstep in IH.
      unfold MAX_ID in *.
      destruct (Z.eqb_spec (nextId (self w)) 10000000) as [Heq|Hne];
        Z.div_mod_to_equations; lia.
Qed.

Lemma draws_NoDup n : forall w,
  0 <= nextId (self w) <= MAX_ID ->
  Z.of_nat n <= MAX_ID + 1 ->
  NoDup (eval (draws n) w).
Proof.
  induction n as [|n IH]; intros w Hr Hn.
  - constructor.
  - rewrite draws_S. destruct (nextId_step w Hr) as [Hstep Hr'].
    apply NoDup_cons_2.
    + rewrite list_elem_of_In. intros Hin.
      pose proof (draws_within n _ _ Hr' Hin) as Hlt. rewrite Hstep in Hlt.
      unfold MAX_ID in *.
      destruct (Z.eqb_spec (nextId (self w)) 10000000) as [Heq|Hne];
        Z.div_mod_to_equations; lia.
    + apply IH; [done|lia].
Qed.

Lemma draws_length n : forall w, length (eval (draws n) w) = n.
Proof.
  induction n as [|n IH]; intros w; [done|].
  rewrite draws_S. simpl. by rewrite IH.
Qed.

Lemma withSelf_setNextId a b w :
  withSelf (setNextId a) (withSelf (setNextId b) w) = withSelf (setNextId a) w.
Proof. by destruct w as [[] ? ? ? ?]. Qed.

(** Below the ceiling, [n] draws advance the counter by [n] and touch
    nothing else. *)
Lemma draws_advance n : forall w,
  0 <= nextId (self w) ->
  nextId (self w) + Z.of_nat n <= MAX_ID ->
  exec (draws n) w = withSelf (setNextId (nextId (self w) + Z.of_nat n)) w.
Proof.
  induction n as [|n IH]; intros w H0 Hn.
  - unfold exec; simpl. rewrite Z.add_0_r. by destruct w as [[] ? ? ? ?].
  - assert (exec (draws (S n)) w = exec (draws n) (exec getNextId w)) as ->.
    { unfold exec. simpl. unfold bind, ret.
      destruct (getNextId w) as [i w1]. simpl. by destruct (draws n w1). }
    unfold exec at 2. rewrite getNextId_run. simpl snd.
    assert ((nextId (self w) + 1 >? MAX_ID) = false) as ->.
    { rewrite Z.gtb_ltb. apply Z.ltb_ge. lia. }
    rewrite IH.
    + rewrite withSelf_setNextId. f_equal. f_equal.
      destruct w as [[] ? ? ? ?]; simpl. lia.
    + destruct w as [[] ? ? ? ?]; simpl in *. lia.
    + destruct w as [[] ? ? ? ?]; simpl in *. lia.
Qed.

(** The fresh client is the one the constructor builds, and ten million
    draws take it to the ceiling. *)
Lemma fresh_constructed : constructor Scenario.options = inr Scenario.fresh.
Proof. reflexivity. Qed.

Lemma atCeiling_reached :
  exec (draws (Z.to_nat MAX_ID)) Scenario.fresh = Scenario.atCeiling.
Proof.
  rewrite draws_advance.
  - rewrite Z2Nat.id by (unfold MAX_ID; lia). reflexivity.
  - simpl. lia.
  - rewrite Z2Nat.id by (unfold MAX_ID; lia). simpl. lia.
Qed.

(** C4, as stated, fails: the counter returns to 0 right after the id
    10,000,000 has been issued, an id that equals the ceiling and does not
    exceed it. *)
Lemma id_counter_wraps_without_exceeding :
  eval getNextId Scenario.atCeiling = MAX_ID
  /\ nextId (self (exec getNextId Scenario.atCeiling)) = 0
  /\ ~ (eval getNextId Scenario.atCeiling > MAX_ID).
Proof. repeat split. vm_compute. discriminate. Qed.

(** C4, amended: a new client's counter is 0; each draw issues the current
    counter and moves it up by exactly 1, except that after issuing the
    ceiling 10,000,000 itself the counter returns to 0 (the counter never
    leaves [0..10,000,000]); hence any N draws with N at most 10,000,001 -
    in particular every N below the ceiling - give N pairwise distinct
    ids. *)
Theorem id_counter_cycle (w : World) (n : nat) :
  0 <= nextId (self w) <= MAX_ID ->
  Z.of_nat n <= MAX_ID + 1 ->
  (forall options w0, constructor options = inr w0 -> nextId (self w0) = 0)
  /\ eval getNextId w = nextId (self w)
  /\ nextId (self (exec getNextId w)) =
       (if nextId (self w) =? MAX_ID then 0 else nextId (self w) + 1)
  /\ 0 <= nextId (self (exec getNextId w)) <= MAX_ID
  /\ length (eval (draws n) w) = n
  /\ NoDup (eval (draws n) w).
Proof.
  intros Hr Hn. split; [|split; [|split; [|split; [|split]]]].
  - intros options w0. unfold constructor.
    destruct (validateOptions _ _ _ _); [discriminate|].
    intros [= <-]. reflexivity.
  - unfold eval. by rewrite getNextId_run.
  - apply nextId_step, Hr.
  - apply nextId_step, Hr.
  - apply draws_length.
  - by apply draws_NoDup.
Qed.

Lemma id_counter_cycle_witness :
  eval (draws 3) Scenario.fresh = [0; 1; 2]
  /\ NoDup (eval (draws 3) Scenario.fresh).
Proof.
  split; [reflexivity|].
  apply (id_counter_cycle Scenario.fresh 3); simpl; unfold MAX_ID; lia.
Defined.

(** ** Construction *)

(** A [defaultTimeout] of 0 is falsy: the constructor replaces it by the
    default before validating. *)
Lemma constructor_zero_defaultTimeout port protocol host interval :
  constructor (mkOptions port protocol host interval (Some 0)) =
  constructor (mkOptions port protocol host interval None).
Proof. reflexivity. Qed.

(** C7, as stated, fails at [defaultTimeout = 0]: construction succeeds,
    with the default timeout of 250. *)
Lemma constructor_accepts_zero_defaultTimeout :
  opt_defaultTimeout Scenario.zeroTimeoutOptions = Some 0
  /\ constructor Scenario.zeroTimeoutOptions = inr Scenario.fresh
  /\ defaultTimeout (self Scenario.fresh) = 250
  /\ (forall err, constructor Scenario.zeroTimeoutOptions <> inl err).
Proof. repeat split. intros err. discriminate. Qed.

(** C7, amended: for every options value whose [defaultTimeout] is below 2
    and is not 0, the constructor throws a configuration error ([0] is
    treated as absent and replaced by the default 250). *)
Theorem constructor_rejects_small_defaultTimeout options t :
  opt_defaultTimeout options = Some t ->
  t < 2 ->
  t <> 0 ->
  exists message, constructor options = inl (Err message).
Proof.
  intros Ht Hlt Hnz. unfold constructor, validateOptions. rewrite Ht.
  assert (orDefault (Some t) DEFAULT_TIMEOUT = t) as ->.
  { unfold orDefault. by destruct (Z.eqb_spec t 0). }
  destruct (_ || _); [eauto|].
  destruct (match opt_host options with Some _ => _ | None => _ end); [eauto|].
  assert ((t <? 2) = true) as -> by by apply Z.ltb_lt.
  eauto.
Qed.

Lemma constructor_rejects_small_defaultTimeout_witness :
  exists message, constructor Scenario.oneTimeoutOptions = inl (Err message).
Proof.
  apply (constructor_rejects_small_defaultTimeout Scenario.oneTimeoutOptions 1);
    [reflexivity | lia | lia].
Defined.

(** ** Building and transmitting a request *)

Lemma requestsSent_app t1 t2 :
  requestsSent (t1 ++ t2) = requestsSent t1 ++ requestsSent t2.
Proof.
  induction t1 as [|e t1 IH]; [done|].
  destruct e as [| | |? []| | | | | | |]; simpl; by rewrite ?IH.
Qed.

Ltac open_world :=
  repeat match goal with
         | w : World |- _ => destruct w as [[] ? ? ? ?]
         end.

Ltac run_client :=
  unfold exec, eval, send, fire, sendRaw, getNextId, Date_now, getTimeout,
    getBindUri, getHost, getUri, getPushSocket, createPushSocket, bindInternal,
    getBindSocket, onMessage, newPromise, resolve, reject, perform, this,
    update, gets, modify, withSelf, bind, ret in *;
  cbn -[pretty String.append Z.add Z.gtb JsMap.get JsMap.set JsMap.delete
        app nth_error] in *.

(** Case analysis for [sendRaw]: resolved host or not, listener bound or
    not, counter at the ceiling or not, push socket cached or not. *)
Ltac sendRaw_cases address :=
  let Hwrap := fresh "Hwrap" in
  let Hget := fresh "Hget" in
  match goal with
  | |- context [self ?w] =>
      destruct w as [[? ?prot ? ? ?hst ?bs ?nid ? ?ss ?] ? ? ? ?]
  end;
  match goal with
  | prot : TSupportedProtocols, hst : option string, bs : option Socket,
    nid : Z, ss : JsMap.t string Socket |- _ =>
      destruct hst, bs;
      destruct (nid + 1 >? MAX_ID) eqn:Hwrap;
      destruct (JsMap.get (protocolName prot +:+ "://" +:+ address) ss) eqn:Hget
  end;
  run_client;
  repeat (progress (rewrite ?Hwrap, ?Hget;
    cbn -[pretty String.append Z.add Z.gtb JsMap.get JsMap.set JsMap.delete
          app nth_error])).

(** ** Promises *)

Lemma settle_pending p s (heap : list PromiseState) :
  heap !! p = Some Pending -> settle p s heap !! p = Some s.
Proof.
  intros H. unfold settle. rewrite H.
  apply list_lookup_insert_eq. by apply lookup_lt_Some in H.
Qed.

Lemma settle_other p q s (heap : list PromiseState) :
  q <> p -> settle p s heap !! q = heap !! q.
Proof.
  intros H. unfold settle.
  destruct (heap !! p) as [[]|]; try done.
  by apply list_lookup_insert_ne.
Qed.

Lemma settle_settled p q s st (heap : list PromiseState) :
  heap !! q = Some st -> st <> Pending -> settle p s heap !! q = Some st.
Proof.
  intros H Hst. destruct (decide (q = p)) as [->|Hne].
  - unfold settle. rewrite H. by destruct st.
  - by rewrite settle_other.
Qed.

(** ** The inbound listener *)

Lemma onMessage_run message w :
  onMessage message w =
  match JSON_parse message with
  | None =>
      (tt, mkWorld (self w) (promises w) (timers w) (reads w)
             (trace w ++ [Emitted "error"]))
  | Some r =>
      match JsMap.get (res_id r) (callbackStorage (self w)) with
      | None => (tt, w)
      | Some callback =>
          let value := sized r (msg_length message) in
          (tt, mkWorld
                 (setCallbackStorage
                    (JsMap.delete (res_id r) (callbackStorage (self w))) (self w))
                 (settle (cb_resolve callback) (Fulfilled value) (promises w))
                 (timers w) (reads w)
                 (trace w ++ [ResolveCalled (cb_resolve callback) value]))
      end
  end.
Proof.
  unfold onMessage. destruct (JSON_parse message) as [r|]; [|reflexivity].
  unfold bind, this, gets, update, modify, resolve, ret, withSelf. simpl.
  by destruct (JsMap.get _ _).
Qed.

Lemma field_data_sized r size : field "data" (sized r size) = res_data r.
Proof. reflexivity. Qed.

(** A response whose id is in the store: the call leaves the store and
    its [resolve] is called with the sized record. *)
Lemma onMessage_found r size callback w :
  JsMap.get (res_id r) (callbackStorage (self w)) = Some callback ->
  let w' := exec (onMessage (mkMessage (Some r) size)) w in
  callbackStorage (self w') = JsMap.delete (res_id r) (callbackStorage (self w))
  /\ trace w' = trace w ++ [ResolveCalled (cb_resolve callback) (sized r size)]
  /\ promises w' =
       settle (cb_resolve callback) (Fulfilled (sized r size)) (promises w).
Proof.
  intros Hget. unfold exec. rewrite onMessage_run. simpl. rewrite Hget. simpl.
  by destruct (self w).
Qed.

(** A response whose id is not in the store changes nothing. *)
Lemma onMessage_unknown r size w :
  JsMap.get (res_id r) (callbackStorage (self w)) = None ->
  exec (onMessage (mkMessage (Some r) size)) w = w.
Proof.
  intros Hget. unfold exec. rewrite onMessage_run. simpl. by rewrite Hget.
Qed.

(** C1, amended: a decoded response whose id has no Pending Call is
    dropped and nothing changes; one whose id has a Pending Call removes
    that call from the store and calls its [resolve] exactly once, with the
    decoded Response Record itself (its [size] attached), whose [data] field
    is the payload; the promise, if pending, is thereby fulfilled, no other
    promise is touched, and the same response delivered again is dropped. *)
Theorem response_delivery (r : TResponseMessage) (size : Z) (w : World) :
  let message := mkMessage (Some r) size in
  let w' := exec (onMessage message) w in
  match JsMap.get (res_id r) (callbackStorage (self w)) with
  | None => w' = w
  | Some callback =>
      callbackStorage (self w') =
        JsMap.delete (res_id r) (callbackStorage (self w))
      /\ JsMap.get (res_id r) (callbackStorage (self w')) = None
      /\ trace w' = trace w ++ [ResolveCalled (cb_resolve callback) (sized r size)]
      /\ field "data" (sized r size) = res_data r
      /\ (promises w !! cb_resolve callback = Some Pending ->
          promises w' !! cb_resolve callback = Some (Fulfilled (sized r size)))
      /\ (forall q, q <> cb_resolve callback -> promises w' !! q = promises w !! q)
      /\ exec (onMessage message) w' = w'
  end.
Proof.
  intros message w'.
  destruct (JsMap.get (res_id r) (callbackStorage (self w))) as [cb|] eqn:Hget.
  - destruct (onMessage_found r size cb w Hget) as (Hst & Htr & Hpr).
    fold message in Hst, Htr, Hpr. fold w' in Hst, Htr, Hpr.
    assert (Hgone : JsMap.get (res_id r) (callbackStorage (self w')) = None).
    { rewrite Hst. apply get_delete_eq. }
    split; [done|]. split; [done|]. split; [done|].
    split; [apply field_data_sized|].
    split; [intros Hpend; rewrite Hpr; by apply settle_pending|].
    split; [intros q Hq; rewrite Hpr; by apply settle_other|].
    by apply onMessage_unknown.
  - by apply onMessage_unknown.
Qed.

(** ** Loops that fail Pending Calls *)

Lemma forEachKey_ext {K V} `{EqDecision K} (sel : Client -> JsMap.t K V)
    (f g : V -> K -> State World unit) :
  (forall v k w, f v k w = g v k w) ->
  forall ks w, forEachKey sel ks f w = forEachKey sel ks g w.
Proof.
  intros Hfg ks. induction ks as [|k ks IH]; intros w; [done|].
  simpl. unfold bind, this, gets. simpl.
  destruct (JsMap.get k (sel (self w))); [|apply IH].
  rewrite Hfg. destruct (g v k w). apply IH.
Qed.

Lemma exec_forEachKey_cons {K V} `{EqDecision K} (sel : Client -> JsMap.t K V)
    (f : V -> K -> State World unit) k ks w :
  exec (forEachKey sel (k :: ks) f) w =
  exec (forEachKey sel ks f)
    (match JsMap.get k (sel (self w)) with
     | Some v => exec (f v k) w
     | None => w
     end).
Proof.
  unfold exec. simpl. unfold bind, this, gets. simpl.
  destruct (JsMap.get k (sel (self w))); [|done].
  by destruct (f v k w).
Qed.

Section RejectLoop.
Variable cond : TCallbackInformation -> bool.
Variable e : Error.
Variable remove : bool.

Local Abbreviation store w := (callbackStorage (self w)).
Local Abbreviation loop ks :=
  (forEachKey callbackStorage ks (rejectWhen cond e remove)).
Local Abbreviation visit := (visit cond e remove).

Lemma rejectWhen_run callback id w :
  exec (rejectWhen cond e remove callback id) w =
  if cond callback then
    mkWorld
      (if remove then setCallbackStorage (JsMap.delete id (store w)) (self w)
       else self w)
      (settle (cb_reject callback) (Rejected e) (promises w))
      (timers w) (reads w)
      (trace w ++ [RejectCalled (cb_reject callback) e])
  else w.
Proof.
  unfold rejectWhen, exec. destruct (cond callback); [|done].
  unfold bind, reject, update, modify, ret, withSelf. simpl.
  destruct remove; [done|]. by destruct w as [[] ? ? ? ?].
Qed.

Lemma loop_cons k ks w : exec (loop (k :: ks)) w = exec (loop ks) (visit k w).
Proof. apply exec_forEachKey_cons. Qed.

Lemma visit_store k w id :
  JsMap.get id (store (visit k w)) =
  match JsMap.get id (store w) with
  | Some callback =>
      if remove && cond callback && bool_decide (id = k) then None
      else Some callback
  | None => None
  end.
Proof.
  unfold visit.
  destruct (JsMap.get k (store w)) as [cbk|] eqn:Hk.
  - rewrite rejectWhen_run.
    destruct (cond cbk) eqn:Hc, remove; simpl.
    + destruct w as [[] ? ? ? ?]; simpl in *. rewrite get_delete.
      destruct (decide (k = id)) as [->|Hne].
      * rewrite Hk, Hc. by rewrite bool_decide_eq_true_2.
      * destruct (JsMap.get id _); [|done].
        rewrite bool_decide_eq_false_2 by congruence.
        by rewrite andb_false_r.
    + by destruct (JsMap.get id _).
    + destruct (JsMap.get id (store w)) as [cb|] eqn:Hid; [|done].
      destruct (decide (id = k)) as [->|Hne].
      * assert (cb = cbk) as -> by congruence. by rewrite Hc.
      * rewrite bool_decide_eq_false_2 by done. by rewrite andb_false_r.
    + by destruct (JsMap.get id _).
  - destruct (JsMap.get id (store w)) as [cb|] eqn:Hid; [|done].
    rewrite bool_decide_eq_false_2 by congruence. by rewrite andb_false_r.
Qed.

(** The store after the loop over [ks]. *)
Lemma loop_store ks : forall w id,
  JsMap.get id (store (exec (loop ks) w)) =
  match JsMap.get id (store w) with
  | Some callback =>
      if remove && cond callback && bool_decide (id ∈ ks) then None
      else Some callback
  | None => None
  end.
Proof.
  induction ks as [|k ks IH]; intros w id.
  - unfold exec; simpl. destruct (JsMap.get id _); [|done].
    by rewrite andb_false_r.
  - rewrite loop_cons, IH, visit_store.
    destruct (JsMap.get id (store w)) as [cb|]; [|done].
    destruct (remove && cond cb) eqn:Hrc; simpl; [|by rewrite Hrc].
    repeat case_bool_decide; simpl; rewrite ?Hrc; simpl; try done.
    all: exfalso; match goal with H : _ |- _ => rewrite elem_of_cons in H end;
      tauto.
Qed.

Lemma visit_store_Some k w id callback :
  JsMap.get id (store (visit k w)) = Some callback ->
  JsMap.get id (store w) = Some callback.
Proof.
  rewrite visit_store. destruct (JsMap.get id (store w)); [|done].
  by destruct (_ && _).
Qed.

Lemma visit_store_ne k w id : id <> k ->
  JsMap.get id (store (visit k w)) = JsMap.get id (store w).
Proof.
  intros Hne. rewrite visit_store. destruct (JsMap.get id (store w)); [|done].
  rewrite bool_decide_eq_false_2 by done. by rewrite andb_false_r.
Qed.

(** What one step does besides the store. *)
Lemma visit_effects k w :
  let hit :=
    match JsMap.get k (store w) with
    | Some callback => if cond callback then Some callback else None
    | None => None
    end in
  trace (visit k w) =
    trace w ++ match hit with
               | Some callback => [RejectCalled (cb_reject callback) e]
               | None => []
               end
  /\ promises (visit k w) =
      match hit with
      | Some callback => settle (cb_reject callback) (Rejected e) (promises w)
      | None => promises w
      end
  /\ timers (visit k w) = timers w
  /\ reads (visit k w) = reads w
  /\ (forall m, setCallbackStorage m (self (visit k w)) =
                setCallbackStorage m (self w))
  /\ (remove = false -> self (visit k w) = self w).
Proof.
  unfold visit. destruct (JsMap.get k (store w)) as [cb|]; simpl.
  - rewrite rejectWhen_run. destruct (cond cb); simpl.
    + repeat split; try done.
      * intros m. destruct remove; [|done]. by destruct (self w).
      * by intros ->.
    + by rewrite app_nil_r.
  - by rewrite app_nil_r.
Qed.

Lemma loop_rest ks : forall w,
  timers (exec (loop ks) w) = timers w
  /\ reads (exec (loop ks) w) = reads w
  /\ (forall m, setCallbackStorage m (self (exec (loop ks) w)) =
                setCallbackStorage m (self w))
  /\ (remove = false -> self (exec (loop ks) w) = self w).
Proof.
  induction ks as [|k ks IH]; intros w; [done|].
  rewrite loop_cons.
  destruct (IH (visit k w)) as (H1 & H2 & H3 & H4).
  destruct (visit_effects k w) as (_ & _ & G1 & G2 & G3 & G4).
  split; [congruence|]. split; [congruence|]. split.
  - intros m. by rewrite H3.
  - intros Hr. rewrite H4, G4; done.
Qed.

(** The [reject] calls of the loop are those of the entries of [ks] that
    satisfy [cond]. *)
Lemma loop_trace ks : forall w,
  exists new,
    trace (exec (loop ks) w) = trace w ++ new
    /\ (forall ev, In ev new ->
          exists id callback,
            id ∈ ks /\ JsMap.get id (store w) = Some callback
            /\ cond callback = true
            /\ ev = RejectCalled (cb_reject callback) e)
    /\ (forall id callback,
          id ∈ ks -> JsMap.get id (store w) = Some callback ->
          cond callback = true ->
          In (RejectCalled (cb_reject callback) e) new).
Proof.
  induction ks as [|k ks IH]; intros w.
  - exists []. unfold exec; simpl. rewrite app_nil_r.
    split; [done|]. split; [done|]. intros id cb Hin. by apply elem_of_nil in Hin.
  - rewrite loop_cons.
    destruct (IH (visit k w)) as (new & Htr & Hsound & Hcomplete).
    destruct (visit_effects k w) as (Hvt & _). cbv zeta in Hvt.
    rewrite Htr, Hvt, <- app_assoc. eexists. split; [reflexivity|].
    split.
    + intros ev Hev. apply in_app_or in Hev as [Hev|Hev].
      * destruct (JsMap.get k (store w)) as [cb|] eqn:Hk; [|done].
        destruct (cond cb) eqn:Hc; [|done].
        destruct Hev as [<-|[]]. exists k, cb.
        split; [apply elem_of_cons; auto|done].
      * destruct (Hsound ev Hev) as (id & cb & Hin & Hget & Hc & ->).
        exists id, cb. split; [apply elem_of_cons; auto|].
        split; [by eapply visit_store_Some|done].
    + intros id cb Hin Hget Hc. apply in_or_app.
      destruct (decide (id = k)) as [->|Hne].
      * left. rewrite Hget, Hc. by left.
      * right. apply (Hcomplete id cb); [|by rewrite visit_store_ne|done].
        apply elem_of_cons in Hin as [|]; done.
Qed.

Lemma loop_promises_settled ks : forall w q st,
  promises w !! q = Some st -> st <> Pending ->
  promises (exec (loop ks) w) !! q = Some st.
Proof.
  induction ks as [|k ks IH]; intros w q st Hq Hst; [done|].
  rewrite loop_cons. apply IH; [|done].
  destruct (visit_effects k w) as (_ & -> & _).
  destruct (JsMap.get k (store w)) as [cb|]; [|done].
  destruct (cond cb); [|done]. by apply settle_settled.
Qed.

Lemma loop_promises_other ks : forall w p,
  (forall id callback,
     id ∈ ks -> JsMap.get id (store w) = Some callback ->
     cond callback = true -> cb_reject callback <> p) ->
  promises (exec (loop ks) w) !! p = promises w !! p.
Proof.
  induction ks as [|k ks IH]; intros w p Hp; [done|].
  rewrite loop_cons, IH.
  - destruct (visit_effects k w) as (_ & -> & _).
    destruct (JsMap.get k (store w)) as [cb|] eqn:Hk; [|done].
    destruct (cond cb) eqn:Hc; [|done].
    apply settle_other. intros Heq.
    apply (Hp k cb); [apply elem_of_cons; auto|done|done|done].
  - intros id cb Hin Hget Hc.
    apply (Hp id cb); [apply elem_of_cons; auto| |done].
    by eapply visit_store_Some.
Qed.

Lemma loop_promises_rejected ks : forall w id callback,
  id ∈ ks -> JsMap.get id (store w) = Some callback ->
  cond callback = true ->
  promises w !! cb_reject callback = Some Pending ->
  promises (exec (loop ks) w) !! cb_reject callback = Some (Rejected e).
Proof.
  induction ks as [|k ks IH]; intros w id cb Hin Hget Hc Hpend.
  - by apply elem_of_nil in Hin.
  - rewrite loop_cons.
    destruct (visit_effects k w) as (_ & Hpr & _). cbv zeta in Hpr.
    destruct (JsMap.get k (store w)) as [cbk|] eqn:Hk.
    + destruct (cond cbk) eqn:Hck.
      * destruct (decide (cb_reject cbk = cb_reject cb)) as [Heq|Hne].
        -- apply loop_promises_settled; [|done].
           rewrite Hpr, Heq. by apply settle_pending.
        -- assert (id <> k) by congruence.
           apply (IH _ id); [|by rewrite visit_store_ne|done|].
           ++ apply elem_of_cons in Hin as [|]; done.
           ++ rewrite Hpr. by rewrite settle_other.
      * assert (id <> k) by congruence.
        apply (IH _ id); [|by rewrite visit_store_ne|done|by rewrite Hpr].
        apply elem_of_cons in Hin as [|]; done.
    + assert (id <> k) by congruence.
      apply (IH _ id); [|by rewrite visit_store_ne|done|by rewrite Hpr].
      apply elem_of_cons in Hin as [|]; done.
Qed.
End RejectLoop.

(** ** close *)

Lemma closeSockets_frame ks : forall w,
  let w' :=
    exec (forEachKey socketStorage ks
            (fun pushSocket _ => perform (Closed pushSocket))) w in
  self w' = self w /\ promises w' = promises w.
Proof.
  induction ks as [|k ks IH]; intros w; [done|].
  cbv zeta. rewrite exec_forEachKey_cons.
  destruct (JsMap.get k (socketStorage (self w))) as [sock|]; [|apply IH].
  destruct (IH (exec (perform (Closed sock)) w)) as [-> ->]. done.
Qed.

Lemma closeTransport_frame w :
  callbackStorage (self (exec closeTransport w)) = callbackStorage (self w)
  /\ promises (exec closeTransport w) = promises w.
Proof.
  unfold closeTransport, Map_forEach, exec, bind, this, gets, update, modify,
    withSelf, clearTimeout. simpl.
  set (w1 := snd (match bindSocket (self w) with
                  | Some s => perform (Closed s)
                  | None => ret tt
                  end w)).
  assert (H1 : self w1 = self w /\ promises w1 = promises w).
  { subst w1. by destruct (bindSocket (self w)). }
  destruct (match bindSocket (self w) with
            | Some s => perform (Closed s)
            | None => ret tt
            end w) as [u1 w1']. simpl in w1. subst w1.
  set (w2 := snd (match checkTimeoutsId (self w1') with
                  | Some t => perform (TimerCleared t)
                  | None => ret tt
                  end w1')).
  assert (H2 : self w2 = self w1' /\ promises w2 = promises w1').
  { subst w2. by destruct (checkTimeoutsId (self w1')). }
  destruct (match checkTimeoutsId (self w1') with
            | Some t => perform (TimerCleared t)
            | None => ret tt
            end w1') as [u2 w2']. simpl in w2. subst w2.
  pose proof (closeSockets_frame (JsMap.keys (socketStorage (self w2'))) w2')
    as H3. cbv zeta in H3. unfold exec in H3.
  destruct (forEachKey socketStorage _ _ w2') as [u3 w3]. simpl in *.
  destruct H1 as [E1 P1], H2 as [E2 P2], H3 as [E3 P3].
  rewrite E3, E2, E1, P3, P2, P1. by destruct (self w).
Qed.

Lemma close_split w :
  exec close w =
  exec (Map_forEach callbackStorage (rejectWhen (fun _ => true) ClosedError false))
    (exec closeTransport w).
Proof.
  unfold close, closeTransport, exec, bind, this, gets. simpl.
  repeat match goal with
         | |- context [let (_, _) := ?c in _] =>
             lazymatch c with
             | context [let (_, _) := _ in _] => fail
             | _ => destruct c
             end
         end.
  reflexivity.
Qed.

(** What [close] does to the Pending Calls: each one that is still
    pending is rejected with the closed error, and the store keeps every
    entry. *)
Lemma close_pending_calls w :
  callbackStorage (self (exec close w)) = callbackStorage (self w)
  /\ (forall id callback,
        JsMap.get id (callbackStorage (self w)) = Some callback ->
        promises w !! cb_reject callback = Some Pending ->
        promises (exec close w) !! cb_reject callback =
          Some (Rejected ClosedError)).
Proof.
  rewrite close_split.
  destruct (closeTransport_frame w) as [Hst Hpr].
  unfold Map_forEach, exec at 1 3, bind, this, gets. simpl.
  set (w1 := exec closeTransport w) in *.
  set (ks := JsMap.keys (callbackStorage (self w1))).
  change (snd (forEachKey callbackStorage ks
                 (rejectWhen (fun _ => true) ClosedError false) w1))
    with (exec (forEachKey callbackStorage ks
                  (rejectWhen (fun _ => true) ClosedError false)) w1).
  split.
  - destruct (loop_rest (fun _ => true) ClosedError false ks w1)
      as (_ & _ & _ & Hself). by rewrite Hself.
  - intros id cb Hget Hpend.
    apply (loop_promises_rejected _ _ _ ks w1 id); [|congruence|done|congruence].
    subst ks. apply list_elem_of_In, (get_Some_keys id cb). congruence.
Qed.

Section Transport.
Variable pid : Z.
Variable hostnameOutput : string.
Variable osHostname : string.
Variable clock : nat -> Z.

Local Abbreviation sendRaw := (sendRaw pid hostnameOutput osHostname clock).
Local Abbreviation send := (send pid hostnameOutput osHostname clock).
Local Abbreviation fire := (fire pid hostnameOutput osHostname clock).
Local Abbreviation fireMulti := (fireMulti pid hostnameOutput osHostname clock).
Local Abbreviation sendMulti := (sendMulti pid hostnameOutput osHostname clock).

(** The record [sendRaw] builds. *)
Lemma sendRaw_message address action params responseWanted w :
  eval (sendRaw address action params responseWanted) w =
  mkRequest (nextId (self w)) (clock (reads w)) action params responseWanted
    (clock (reads w) + orDefault (timeout params) (defaultTimeout (self w)))
    (bindUri hostnameOutput osHostname (self w)).
Proof.
  destruct responseWanted; sendRaw_cases address; reflexivity.
Qed.

(** What [sendRaw] leaves alone, and what it adds to the trace: socket
    set-up, then the transmission as the last effect. *)
Lemma sendRaw_frame address action params responseWanted w :
  let m := eval (sendRaw address action params responseWanted) w in
  let w' := exec (sendRaw address action params responseWanted) w in
  callbackStorage (self w') = callbackStorage (self w)
  /\ promises w' = promises w
  /\ defaultTimeout (self w') = defaultTimeout (self w)
  /\ requestsSent (trace w') = requestsSent (trace w) ++ [m]
  /\ filter isSettlement (trace w') = filter isSettlement (trace w)
  /\ exists setup pushSocket,
       trace w' = trace w ++ setup ++ [Sent pushSocket (Request m)]
       /\ JsMap.get (protocolName (protocol (self w)) +:+ "://" +:+ address)
            (socketStorage (self w')) = Some pushSocket.
Proof.
  destruct responseWanted; sendRaw_cases address.
  all: repeat split.
  all: rewrite <- ?app_assoc.
  all: rewrite ?requestsSent_app, ?filter_app.
  all: cbn [app requestsSent filter isSettlement].
  all: rewrite ?app_nil_r; try reflexivity.
  all: match goal with
       | |- exists _ _, _ ++ [Sent ?s _] = _ /\ _ => exists [], s
       | |- exists _ _, _ ++ [?a; Sent ?s _] = _ /\ _ => exists [a], s
       | |- exists _ _, _ ++ [?a; ?b; Sent ?s _] = _ /\ _ => exists [a; b], s
       | |- exists _ _, _ ++ [?a; ?b; ?c; Sent ?s _] = _ /\ _ =>
           exists [a; b; c], s
       end.
  all: split; [reflexivity|].
  all: rewrite ?get_set_eq; try eassumption; reflexivity.
Qed.

Lemma send_run address action params w :
  let m := eval (sendRaw address action params true) w in
  let w1 := exec (sendRaw address action params true) w in
  let p := length (promises w1) in
  send address action params w =
  (p, mkWorld
        (setCallbackStorage
           (JsMap.set (req_id m)
              (mkCallback (req_createdAt m) (req_expiresAt m) p p action
                 (req_sourceUri m))
              (callbackStorage (self w1))) (self w1))
        (promises w1 ++ [Pending]) (timers w1) (reads w1) (trace w1)).
Proof.
  unfold CommunicationClient.send, eval, exec, bind.
  destruct (sendRaw address action params true w) as [m w1]. reflexivity.
Qed.

Lemma fire_run address action params w :
  fire address action params w =
  (tt, exec (sendRaw address action params false) w).
Proof.
  unfold CommunicationClient.fire, exec, bind, ret.
  by destruct (sendRaw address action params false w).
Qed.

Lemma exec_forEach_cons {A} (f : A -> State World unit) a l w :
  exec (forEach (a :: l) f) w = exec (forEach l f) (exec (f a) w).
Proof. unfold exec. simpl. unfold bind. by destruct (f a w). Qed.

Lemma exec_mapM_cons {A B} (f : A -> State World B) a l w :
  exec (mapM f (a :: l)) w = exec (mapM f l) (exec (f a) w).
Proof.
  unfold exec. simpl. unfold bind, ret.
  destruct (f a w) as [b w1]. simpl. by destruct (mapM f l w1).
Qed.

Lemma expiryRule_orDefault params c m :
  req_expiresAt m = req_createdAt m + orDefault (timeout params) (defaultTimeout c) ->
  expiryRule params c m.
Proof.
  unfold expiryRule, orDefault. intros ->. split.
  - intros t -> Ht. by destruct (Z.eqb_spec t 0).
  - by intros [-> | ->].
Qed.

Lemma send_sends_request address action params w :
  let m := eval (sendRaw address action params true) w in
  requestsSent (trace (exec (send address action params) w)) =
    requestsSent (trace w) ++ [m]
  /\ req_responseWanted m = true
  /\ req_expiresAt m =
       req_createdAt m + orDefault (timeout params) (defaultTimeout (self w)).
Proof.
  unfold exec at 1. rewrite send_run. simpl snd. simpl trace.
  destruct (sendRaw_frame address action params true w)
    as (_ & _ & _ & Hreq & _).
  split; [exact Hreq|]. by rewrite sendRaw_message.
Qed.

(** C6, amended: every request built by [fire] or [send] has
    [expiresAt = createdAt + t], where [t] is [params.timeout] when the
    caller supplied one other than [0], and the instance's [defaultTimeout]
    when [params.timeout] is absent or [0]. *)
Theorem request_expiry address action params w :
  (exists m,
     requestsSent (trace (exec (fire address action params) w)) =
       requestsSent (trace w) ++ [m]
     /\ req_responseWanted m = false
     /\ expiryRule params (self w) m)
  /\ (exists m,
     requestsSent (trace (exec (send address action params) w)) =
       requestsSent (trace w) ++ [m]
     /\ req_responseWanted m = true
     /\ expiryRule params (self w) m).
Proof.
  split.
  - exists (eval (sendRaw address action params false) w).
    unfold exec at 1. rewrite fire_run. simpl snd.
    destruct (sendRaw_frame address action params false w)
      as (_ & _ & _ & Hreq & _).
    split; [exact Hreq|]. rewrite sendRaw_message. simpl.
    split; [done|]. by apply expiryRule_orDefault.
  - exists (eval (sendRaw address action params true) w).
    destruct (send_sends_request address action params w) as (H1 & H2 & H3).
    split; [exact H1|]. split; [exact H2|]. by apply expiryRule_orDefault.
Qed.

(** ** fire *)

Lemma fire_frame address action params w :
  let w' := exec (fire address action params) w in
  callbackStorage (self w') = callbackStorage (self w)
  /\ promises w' = promises w
  /\ filter isSettlement (trace w') = filter isSettlement (trace w).
Proof.
  unfold exec. rewrite fire_run. simpl snd.
  destruct (sendRaw_frame address action params false w)
    as (H1 & H2 & _ & _ & H3 & _). auto.
Qed.

(** C9: [fire], and [fireMulti] through each of its sends, leaves the
    Pending Call store and every promise as they were and calls no
    [resolve] or [reject]; they are total functions of the client alone,
    returning whatever the state of any server. *)
Theorem fire_creates_no_pending_call addresses address action params w :
  (let w' := exec (fire address action params) w in
   eval (fire address action params) w = tt
   /\ callbackStorage (self w') = callbackStorage (self w)
   /\ promises w' = promises w
   /\ filter isSettlement (trace w') = filter isSettlement (trace w))
  /\ (let w' := exec (fireMulti addresses action params) w in
      eval (fireMulti addresses action params) w = tt
      /\ callbackStorage (self w') = callbackStorage (self w)
      /\ promises w' = promises w
      /\ filter isSettlement (trace w') = filter isSettlement (trace w)).
Proof.
  split.
  - split; [by destruct (eval _ _)|]. apply fire_frame.
  - split; [by destruct (eval _ _)|].
    unfold CommunicationClient.fireMulti.
    revert w. induction addresses as [|a l IH]; intros w; [done|].
    rewrite exec_forEach_cons.
    destruct (IH (exec (fire a action params) w)) as (H1 & H2 & H3).
    destruct (fire_frame a action params w) as (G1 & G2 & G3).
    rewrite H1, H2, H3. auto.
Qed.

(** ** sendMulti *)

Lemma sendMulti_requests addresses action params responseWanted : forall w,
  exists new,
    requestsSent
      (trace (exec (sendMulti addresses action params responseWanted) w)) =
      requestsSent (trace w) ++ new
    /\ length new = length addresses
    /\ Forall (fun m => req_responseWanted m = true) new.
Proof.
  unfold CommunicationClient.sendMulti.
  induction addresses as [|a l IH]; intros w.
  - exists []. by rewrite app_nil_r.
  - rewrite exec_mapM_cons.
    destruct (IH (exec (send a action params) w)) as (new & H1 & H2 & H3).
    destruct (send_sends_request a action params w) as (G1 & G2 & _).
    eexists (_ :: new). rewrite H1, G1, <- app_assoc. simpl.
    split; [reflexivity|]. split; [by rewrite H2|]. by constructor.
Qed.

(** C10: the [responseWanted] argument of [sendMulti] has no influence:
    two runs that differ only in it return the same promises and leave the
    same client, store and trace; each address gets one request, and every
    one of them asks for a response. *)
Theorem sendMulti_ignores_responseWanted addresses action params
    (responseWanted1 responseWanted2 : bool) w :
  sendMulti addresses action params responseWanted1 w =
  sendMulti addresses action params responseWanted2 w
  /\ exists new,
      requestsSent
        (trace (exec (sendMulti addresses action params responseWanted1) w)) =
        requestsSent (trace w) ++ new
      /\ length new = length addresses
      /\ Forall (fun m => req_responseWanted m = true) new.
Proof.
  split; [reflexivity|]. apply sendMulti_requests.
Qed.

(** ** send *)

(** C5: within [send], the request is handed to the push socket as the
    last effect of [sendRaw], when the store does not yet hold the call; the
    Pending Call is registered next, in the same turn, with nothing in
    between ([send] contains no [await], so it is one transformer); and a
    response to that id delivered in the first turn after [send] finds the
    call and fulfils the promise [send] returned. *)
Theorem send_registers_in_same_turn address action params w :
  let m := eval (sendRaw address action params true) w in
  let wSent := exec (sendRaw address action params true) w in
  let p := eval (send address action params) w in
  let w' := exec (send address action params) w in
  (exists setup pushSocket,
     trace wSent = trace w ++ setup ++ [Sent pushSocket (Request m)])
  /\ callbackStorage (self wSent) = callbackStorage (self w)
  /\ trace w' = trace wSent
  /\ JsMap.get (req_id m) (callbackStorage (self w')) =
       Some (mkCallback (req_createdAt m) (req_expiresAt m) p p action
               (req_sourceUri m))
  /\ promises w' !! p = Some Pending
  /\ (forall r size, res_id r = req_id m ->
       promises (exec (onMessage (mkMessage (Some r) size)) w') !! p =
         Some (Fulfilled (sized r size))).
Proof.
  intros m wSent p w'.
  destruct (sendRaw_frame address action params true w)
    as (Hcb & Hpr & _ & _ & _ & setup & sock & Htr & _).
  fold m in Htr. fold wSent in Hcb, Hpr, Htr.
  assert (Hrun := send_run address action params w).
  cbv zeta in Hrun. fold m wSent in Hrun.
  assert (Hp : p = length (promises wSent)).
  { subst p. unfold eval. by rewrite Hrun. }
  assert (Hw' : w' =
    mkWorld
      (setCallbackStorage
         (JsMap.set (req_id m)
            (mkCallback (req_createdAt m) (req_expiresAt m) p p action
               (req_sourceUri m))
            (callbackStorage (self wSent))) (self wSent))
      (promises wSent ++ [Pending]) (timers wSent) (reads wSent) (trace wSent)).
  { subst w'. unfold exec. rewrite Hrun, Hp. reflexivity. }
  assert (Hget : JsMap.get (req_id m) (callbackStorage (self w')) =
    Some (mkCallback (req_createdAt m) (req_expiresAt m) p p action
            (req_sourceUri m))).
  { rewrite Hw'. destruct (self wSent); simpl. apply get_set_eq. }
  assert (Hpend : promises w' !! p = Some Pending).
  { rewrite Hw'. simpl. by apply list_lookup_middle. }
  split; [eauto|]. split; [done|]. split; [by rewrite Hw'|].
  split; [done|]. split; [done|].
  intros r size Hid. rewrite <- Hid in Hget.
  destruct (onMessage_found r size _ w' Hget) as (_ & _ & ->). simpl.
  by apply settle_pending.
Qed.

(** ** The Timeout Sweeper *)

Local Abbreviation checkTimeouts := (checkTimeouts clock).

(** The sweep reads the clock, runs the rejecting loop over the store with
    the sweeper's test, and re-arms the timer. *)
Lemma checkTimeouts_run w :
  let time := clock (reads w) in
  let w1 := mkWorld (self w) (promises w) (timers w) (S (reads w)) (trace w) in
  let w2 :=
    exec (forEachKey callbackStorage (JsMap.keys (callbackStorage (self w)))
            (rejectWhen (expired time) (TimeoutError "Timeout error") true))
      w1 in
  exec checkTimeouts w =
  mkWorld (setCheckTimeoutsId (Some (timers w2)) (self w2)) (promises w2)
    (S (timers w2)) (reads w2)
    (trace w2 ++ [TimerSet (timers w2) (checkTimeoutsInterval (self w2))]).
Proof.
  intros time w1 w2.
  unfold CommunicationClient.checkTimeouts, Map_forEach, exec, bind, Date_now,
    this, gets. cbv beta iota.
  rewrite (forEachKey_ext callbackStorage _
             (rejectWhen (expired time) (TimeoutError "Timeout error") true)).
  - subst w2. unfold exec. simpl self at 1. fold w1.
    by destruct (forEachKey callbackStorage _ _ w1).
  - intros v k w0. unfold rejectWhen, expired, bind. fold time.
    by destruct (cb_expiresAt v >? time).
Qed.

Lemma expired_true time callback :
  expired time callback = true <-> cb_expiresAt callback <= time.
Proof.
  unfold expired. rewrite Z.gtb_ltb, negb_true_iff, Z.ltb_ge. done.
Qed.

(** C3: one run of the sweeper at time [time] removes from the store the
    Pending Calls with [expiresAt <= time] and no others, calls [reject] with
    the timeout error for those and for no others, so that their promises,
    if pending, end rejected with the timeout error, and leaves every call
    with [expiresAt > time] and every promise that belongs to none of the
    expired calls as it was. *)
Theorem sweep_fails_exactly_expired w :
  let time := clock (reads w) in
  let w' := exec checkTimeouts w in
  (forall id,
     JsMap.get id (callbackStorage (self w')) =
     match JsMap.get id (callbackStorage (self w)) with
     | Some callback =>
         if cb_expiresAt callback <=? time then None else Some callback
     | None => None
     end)
  /\ (exists new t,
        trace w' =
          trace w ++ new ++ [TimerSet t (checkTimeoutsInterval (self w))]
        /\ (forall ev, In ev new ->
              exists id callback,
                JsMap.get id (callbackStorage (self w)) = Some callback
                /\ cb_expiresAt callback <= time
                /\ ev = RejectCalled (cb_reject callback)
                          (TimeoutError "Timeout error"))
        /\ (forall id callback,
              JsMap.get id (callbackStorage (self w)) = Some callback ->
              cb_expiresAt callback <= time ->
              In (RejectCalled (cb_reject callback)
                    (TimeoutError "Timeout error")) new))
  /\ (forall id callback,
        JsMap.get id (callbackStorage (self w)) = Some callback ->
        cb_expiresAt callback <= time ->
        promises w !! cb_reject callback = Some Pending ->
        promises w' !! cb_reject callback =
          Some (Rejected (TimeoutError "Timeout error")))
  /\ (forall p,
        (forall id callback,
           JsMap.get id (callbackStorage (self w)) = Some callback ->
           cb_expiresAt callback <= time -> cb_reject callback <> p) ->
        promises w' !! p = promises w !! p).
Proof.
  intros time w'. subst w'. rewrite checkTimeouts_run. fold time.
  set (w1 := mkWorld (self w) (promises w) (timers w) (S (reads w)) (trace w)).
  set (ks := JsMap.keys (callbackStorage (self w))).
  set (timeout := TimeoutError "Timeout error").
  set (w2 := exec (forEachKey callbackStorage ks
                     (rejectWhen (expired time) timeout true)) w1).
  assert (Hks : forall id callback,
            JsMap.get id (callbackStorage (self w)) = Some callback -> id ∈ ks).
  { intros id cb Hget. by apply list_elem_of_In, (get_Some_keys id cb). }
  simpl. split; [|split; [|split]].
  - intros id. destruct (self w2) eqn:Hself2. simpl.
    assert (callbackStorage0 = callbackStorage (self w2)) as ->
      by (by rewrite Hself2).
    subst w2. rewrite loop_store. simpl.
    destruct (JsMap.get id (callbackStorage (self w))) as [cb|] eqn:Hget;
      [|done].
    rewrite (bool_decide_eq_true_2 _ (Hks _ _ Hget)), andb_true_r.
    unfold expired. rewrite Z.gtb_ltb, Z.leb_antisym. done.
  - destruct (loop_trace (expired time) timeout true ks w1)
      as (new & Htr & Hsound & Hcomplete). fold w2 in Htr.
    destruct (loop_rest (expired time) timeout true ks w1)
      as (_ & _ & Hfields & _). fold w2 in Hfields.
    exists new, (timers w2). rewrite Htr. simpl. rewrite <- app_assoc.
    split; [|split].
    + do 3 f_equal.
      specialize (Hfields []).
      apply (f_equal CommunicationClient.checkTimeoutsInterval) in Hfields.
      unfold setCallbackStorage in Hfields. simpl in Hfields. congruence.
    + intros ev Hev. destruct (Hsound ev Hev) as (id & cb & _ & Hget & Hc & ->).
      exists id, cb. by rewrite <- expired_true.
    + intros id cb Hget Hexp. apply (Hcomplete id cb); [by eapply Hks|done|].
      by apply expired_true.
  - intros id cb Hget Hexp Hpend. subst w2.
    apply (loop_promises_rejected _ _ _ ks w1 id); [by eapply Hks|done| |done].
    by apply expired_true.
  - intros p Hp. subst w2. rewrite loop_promises_other; [done|].
    intros id cb _ Hget Hc. apply (Hp id cb Hget). by apply expired_true.
Qed.
End Transport.

End ClientProperties.

(** * Properties of the server *)

Module ServerProperties.
Import CommunicationServer Notions JsMapFacts.
Local Open Scope state_scope.

Section Dispatcher.
Variable pid : Z.
Variable hostnameOutput : string.
Variable osHostname : string.

Local Abbreviation afterAwait := (afterAwait pid hostnameOutput osHostname).
Local Abbreviation listenUri := (listenUri hostnameOutput osHostname).

(** The turn that receives a request: the handler is called, and nothing
    is sent. *)
Lemma listener_run messageObject handler w :
  onRequest (self w) = Some handler ->
  onMessage (mkMessage (inr messageObject)) w =
  (if req_responseWanted messageObject
   then Some (messageObject, handler None (Some messageObject))
   else None,
   mkWorld (self w) (trace w ++ [HandlerCalled None (Some messageObject)])).
Proof.
  intros Hh. unfold onMessage, callOnRequest, bind, this, gets, perform, ret.
  simpl. rewrite Hh. by destruct (req_responseWanted messageObject).
Qed.

(** The turn after the [await], when the handler's result is [data]. *)
Lemma afterAwait_run messageObject data w :
  let uri := req_sourceUri messageObject in
  let response :=
    mkResponse data (Some (listenUri (self w))) (req_id messageObject) in
  let w' := exec (afterAwait messageObject (Returns data)) w in
  match JsMap.get uri (socketStorage (self w)) with
  | Some pushSocket =>
      trace w' = trace w ++ [Sent pushSocket (Response response)]
      /\ socketStorage (self w') = socketStorage (self w)
  | None =>
      let pushSocket := mkSocket push (getPushSocketIdentity pid) uri in
      trace w' = trace w ++ [Connected pushSocket;
                             Sent pushSocket (Response response)]
      /\ JsMap.get uri (socketStorage (self w')) = Some pushSocket
  end.
Proof.
  destruct w as [[? ? ? hst ? ss] tr].
  unfold CommunicationServer.afterAwait, sendResponse, getPushSocket,
    createPushSocket, getListenUri, getHost, exec, bind, this, gets, update,
    modify, perform, ret, Notions.listenUri.
  cbn -[pretty String.append JsMap.get JsMap.set app].
  destruct hst; cbn -[pretty String.append JsMap.get JsMap.set app];
    destruct (JsMap.get (req_sourceUri messageObject) ss) eqn:Hget;
    cbn -[pretty String.append JsMap.get JsMap.set app];
    rewrite ?Hget, <- ?app_assoc, ?get_set_eq; done.
Qed.

(** C8: for a decoded request, when no response is wanted the listener
    ends after calling the handler, having sent nothing; when one is wanted
    it suspends on the handler's result, and once that result [data] is
    there it sends exactly one Response Record [{id, data, sourceUri}] with
    the request's id and the server's own listening URI, on the push socket
    the cache holds for the request's [sourceUri] (connected and cached
    first when there was none). *)
Theorem dispatcher_reply handler messageObject w :
  onRequest (self w) = Some handler ->
  let message := mkMessage (inr messageObject) in
  let suspended := eval (onMessage message) w in
  let w1 := exec (onMessage message) w in
  trace w1 = trace w ++ [HandlerCalled None (Some messageObject)]
  /\ self w1 = self w
  /\ (req_responseWanted messageObject = false -> suspended = None)
  /\ (req_responseWanted messageObject = true ->
      suspended = Some (messageObject, handler None (Some messageObject)))
  /\ (forall w2 data,
        let uri := req_sourceUri messageObject in
        let response :=
          mkResponse data (Some (listenUri (self w2))) (req_id messageObject) in
        let w3 := exec (afterAwait messageObject (Returns data)) w2 in
        match JsMap.get uri (socketStorage (self w2)) with
        | Some pushSocket =>
            trace w3 = trace w2 ++ [Sent pushSocket (Response response)]
            /\ socketStorage (self w3) = socketStorage (self w2)
        | None =>
            let pushSocket := mkSocket push (getPushSocketIdentity pid) uri in
            trace w3 = trace w2 ++ [Connected pushSocket;
                                    Sent pushSocket (Response response)]
            /\ JsMap.get uri (socketStorage (self w3)) = Some pushSocket
        end).
Proof.
  intros Hh message suspended w1. subst suspended w1 message.
  unfold eval, exec. rewrite (listener_run _ handler) by done. simpl.
  split; [done|]. split; [done|]. split; [by intros ->|].
  split; [by intros ->|].
  intros w2 data. apply afterAwait_run.
Qed.
End Dispatcher.

End ServerProperties.

(** * The echo round trip and the other concrete runs *)

Module RoundTrip.
Import CommunicationClient Notions Scenario.

(** The constructor's checks, in their order. *)
Lemma constructor_checks :
  constructor (mkOptions 80 None None None None) =
    inl (Err "Port is out of range: 80")
  /\ constructor (mkOptions 5000 None (Some "tcp://node-a") None None) =
       inl (Err "Hostname cannot contain protocol, format is hostname:port (but got tcp://node-a)")
  /\ constructor oneTimeoutOptions =
       inl (Err "Timeout cannot be set to value smaller then 2: 1")
  /\ constructor (mkOptions 5000 None None (Some (-1)) None) =
       inl (Err "Timeout check cannot be set to value smaller then 1: 250").
Proof. repeat split. Qed.

(** [send] transmits [echoRequest] and registers the call under id 0. *)
Lemma send_echo :
  echoPromise = 0%nat
  /\ requestsSent (trace afterSend) = [echoRequest]
  /\ JsMap.get 0 (callbackStorage (self afterSend)) =
       Some (mkCallback 1000 1250 0%nat 0%nat "echo" "tcp://10.0.0.1:5000")
  /\ promises afterSend = [Pending].
Proof. repeat split. Qed.

(** The listening server, given that request, replies with [echoResponse],
    whose payload is 7, on a socket connected to the client's URI. *)
Lemma server_echo :
  eval (CommunicationServer.onMessage echoDelivery) serverListening =
    Some (echoRequest, CommunicationServer.Returns (VNum 7))
  /\ CommunicationServer.trace
       (exec (CommunicationServer.afterAwait pid hostnameOutput osHostname
                echoRequest (CommunicationServer.Returns (VNum 7)))
          (exec (CommunicationServer.onMessage echoDelivery) serverListening)) =
     CommunicationServer.trace
       (exec (CommunicationServer.onMessage echoDelivery) serverListening)
     ++ [Connected (mkSocket push "bind42" "tcp://10.0.0.1:5000");
         Sent (mkSocket push "bind42" "tcp://10.0.0.1:5000")
           (Response echoResponse)].
Proof. split; reflexivity. Qed.

(** C1, as stated, fails: the promise of the echo call is fulfilled with
    the Response Record (its [size] attached), not with the payload 7. *)
Lemma echo_resolves_with_record_not_payload :
  JSON_parse echoReply = Some echoResponse
  /\ res_data echoResponse = VNum 7
  /\ promises (exec (onMessage echoReply) afterSend) !! echoPromise =
       Some (Fulfilled (VObj [("id", VNum 0); ("data", VNum 7);
                              ("sourceUri", VStr "tcp://10.0.0.2:6000");
                              ("size", VNum 52)]))
  /\ promises (exec (onMessage echoReply) afterSend) !! echoPromise <>
       Some (Fulfilled (res_data echoResponse)).
Proof. repeat split. discriminate. Qed.

(** C6, as stated, fails at [params.timeout = 0]: the request expires the
    default 250 after its creation, not 0 after it. *)
Lemma zero_timeout_uses_default :
  timeout (req_params zeroTimeoutRequest) = Some 0
  /\ req_createdAt zeroTimeoutRequest = 1000
  /\ req_expiresAt zeroTimeoutRequest = 1250
  /\ req_expiresAt zeroTimeoutRequest <> req_createdAt zeroTimeoutRequest + 0.
Proof. repeat split. discriminate. Qed.

(** A supplied timeout other than 0 is used. *)
Lemma short_timeout_used :
  let m := eval (sendRaw pid hostnameOutput osHostname clock serverAddress
                   "echo" shortTimeoutParams false) fresh in
  req_expiresAt m = req_createdAt m + 40.
Proof. reflexivity. Qed.

(** C2 fails on the code: after [close] the echo call has been rejected
    with the closed error, and it is still in the store. *)
Theorem close_leaves_call_in_store :
  promises afterSend !! echoPromise = Some Pending
  /\ promises closedWhilePending !! echoPromise = Some (Rejected ClosedError)
  /\ JsMap.get 0 (callbackStorage (self closedWhilePending)) =
       JsMap.get 0 (callbackStorage (self afterSend))
  /\ JsMap.size (callbackStorage (self closedWhilePending)) = 1%nat
  /\ callbackStorage (self closedWhilePending) <> JsMap.empty
  /\ socketStorage (self closedWhilePending) = JsMap.empty.
Proof. repeat split. discriminate. Qed.

(** The sweeper, run before and at the expiry of the echo call. *)
Lemma sweep_echo :
  let early := mkWorld (self afterSend) (promises afterSend) 1 248 [] in
  let due := mkWorld (self afterSend) (promises afterSend) 1 250 [] in
  clock 248 = 1248 /\ clock 250 = 1250
  /\ promises (exec (checkTimeouts clock) early) = [Pending]
  /\ JsMap.size (callbackStorage (self (exec (checkTimeouts clock) early)))
       = 1%nat
  /\ promises (exec (checkTimeouts clock) due) =
       [Rejected (TimeoutError "Timeout error")]
  /\ callbackStorage (self (exec (checkTimeouts clock) due)) = JsMap.empty.
Proof. repeat split. Qed.

Lemma dispatcher_reply_witness :
  CommunicationServer.trace
    (exec (CommunicationServer.onMessage echoDelivery) serverListening) =
    CommunicationServer.trace serverListening
    ++ [HandlerCalled None (Some echoRequest)]
  /\ eval (CommunicationServer.onMessage echoDelivery) serverListening =
       Some (echoRequest, echo None (Some echoRequest)).
Proof.
  assert (H : CommunicationServer.onRequest
                (CommunicationServer.self serverListening) = Some echo)
    by reflexivity.
  destruct (ServerProperties.dispatcher_reply pid hostnameOutput osHostname
              echo echoRequest serverListening H) as (H1 & _ & _ & H4 & _).
  split; [exact H1 | exact (H4 eq_refl)].
Defined.

End RoundTrip.

(** * The rest of the server *)

Module CacheFacts.
Import Coverage JsMapFacts.

Lemma get_None_keys {K V} `{EqDecision K} (k : K) (m : JsMap.t K V) :
  JsMap.get k m = None <-> ~ In k (JsMap.keys m).
Proof.
  induction m as [|[k0 v0] m IH]; simpl; [tauto|].
  destruct (decide (k0 = k)) as [->|Hne]; [split; [done|tauto]|].
  rewrite IH. tauto.
Qed.

Lemma keys_set_fresh {K V} `{EqDecision K} (k : K) (v : V) (m : JsMap.t K V) :
  JsMap.get k m = None -> JsMap.keys (JsMap.set k v m) = JsMap.keys m ++ [k].
Proof.
  induction m as [|[k0 v0] m IH]; simpl; [done|].
  destruct (decide (k0 = k)); [done|]. intros Hget. simpl. by rewrite IH.
Qed.

Lemma keys_set_present {K V} `{EqDecision K} (k : K) (v v0 : V)
    (m : JsMap.t K V) :
  JsMap.get k m = Some v0 -> JsMap.keys (JsMap.set k v m) = JsMap.keys m.
Proof.
  induction m as [|[k1 v1] m IH]; simpl; [done|].
  destruct (decide (k1 = k)) as [->|]; [done|]. intros Hget. simpl.
  by rewrite IH.
Qed.

Lemma cacheOk_empty identity : cacheOk identity JsMap.empty.
Proof. split; [constructor|done]. Qed.

(** Filing a new push socket under a destination that has none keeps the
    cache well formed. *)
Lemma cacheOk_set identity uri m :
  cacheOk identity m ->
  JsMap.get uri m = None ->
  cacheOk identity (JsMap.set uri (mkSocket push identity uri) m).
Proof.
  intros [Hnd Hsock] Hget. split.
  - rewrite keys_set_fresh by done. apply NoDup_app. split; [done|].
    split; [|apply NoDup_singleton].
    intros k Hk Hk'. apply list_elem_of_singleton in Hk' as ->.
    by apply get_None_keys in Hget; apply Hget, list_elem_of_In.
  - intros uri' s. rewrite get_set.
    destruct (decide (uri = uri')) as [->|]; [by intros [= <-]|apply Hsock].
Qed.
End CacheFacts.

Module ServerCoverage.
Import CommunicationServer Notions Coverage JsMapFacts CacheFacts.
Local Open Scope state_scope.

Section Server.
Variable pid : Z.
Variable hostnameOutput : string.
Variable osHostname : string.

Local Abbreviation listen := (listen pid hostnameOutput osHostname).
Local Abbreviation afterAwait := (afterAwait pid hostnameOutput osHostname).
Local Abbreviation listenUri := (listenUri hostnameOutput osHostname).


(** ** listen and close *)

Lemma getListenUri_run w :
  getListenUri hostnameOutput osHostname w =
  (listenUri (self w),
   mkWorld
     (mkServer (port (self w)) (protocol (self w)) (listenSocket (self w))
        (Some (default (getSystemHost.getSystemHost hostnameOutput osHostname)
                 (host (self w))))
        (onRequest (self w)) (socketStorage (self w)))
     (trace w)).
Proof.
  destruct w as [[? ? ? hst ? ?] ?].
  unfold getListenUri, getHost, bind, this, gets, update, modify, ret,
    Notions.listenUri.
  by destruct hst.
Qed.

Lemma listen_run handler w :
  listen handler w =
  match listenSocket (self w) with
  | Some _ =>
      (Some (Err ("Already listening on port " +:+ pretty (port (self w)))), w)
  | None =>
      let s := mkSocket pull (getListenSocketIdentity pid) (listenUri (self w)) in
      (None,
       mkWorld
         (mkServer (port (self w)) (protocol (self w)) (Some s)
            (Some (default (getSystemHost.getSystemHost hostnameOutput osHostname)
                     (host (self w))))
            (Some handler) (socketStorage (self w)))
         (trace w ++ [Bound s; Listening s]))
  end.
Proof.
  destruct w as [[prt prot ls hst h ss] tr].
  unfold CommunicationServer.listen, bind, this, gets. simpl.
  destruct ls; [reflexivity|].
  unfold listenInternal, getListenSocket, bind, update, modify, perform, ret.
  simpl. rewrite getListenUri_run. simpl. by rewrite <- app_assoc.
Qed.

Lemma listenUri_resolved_eq prt prot ls hst h ss :
  listenUri
    (mkServer prt prot ls
       (Some (default (getSystemHost.getSystemHost hostnameOutput osHostname) hst))
       h ss) =
  listenUri (mkServer prt prot ls hst h ss).
Proof. unfold Notions.listenUri. by destruct hst. Qed.

(** X2: [listen] on a server that is not yet bound binds one pull socket at
    the server's listening URI, stores the handler and throws nothing; any
    further [listen] throws "Already listening on port <port>" and changes
    nothing, the handler included. *)
Theorem listen_binds_once handler w :
  listenSocket (self w) = None ->
  let s := mkSocket pull (getListenSocketIdentity pid) (listenUri (self w)) in
  let w' := exec (listen handler) w in
  eval (listen handler) w = None
  /\ listenSocket (self w') = Some s
  /\ onRequest (self w') = Some handler
  /\ socketStorage (self w') = socketStorage (self w)
  /\ trace w' = trace w ++ [Bound s; Listening s]
  /\ (forall handler',
        listen handler' w' =
        (Some (Err ("Already listening on port " +:+ pretty (port (self w)))),
         w')).
Proof.
  intros Hunbound s w'. subst w'. unfold eval, exec.
  rewrite listen_run, Hunbound. simpl.
  repeat split.
Qed.

Lemma server_close_keeps_channels_aux w :
  self (exec close w) = self w
  /\ trace (exec close w) =
       trace w ++ match listenSocket (self w) with
                  | Some s => [Closed s]
                  | None => []
                  end.
Proof.
  unfold close, exec, bind, this, gets. simpl.
  destruct (listenSocket (self w)); simpl; [done|].
  rewrite app_nil_r. by destruct w.
Qed.

(** X3: the server's [close] closes the listening socket when there is
    one and nothing else: the reply channels stay open and cached, and the
    server still counts as bound, so a [listen] after [close] throws
    "Already listening" and binds nothing. *)
Theorem server_close_keeps_channels w :
  let w' := exec close w in
  self w' = self w
  /\ trace w' = trace w ++ match listenSocket (self w) with
                           | Some s => [Closed s]
                           | None => []
                           end
  /\ (forall s handler,
        listenSocket (self w) = Some s ->
        listen handler w' =
        (Some (Err ("Already listening on port " +:+ pretty (port (self w)))),
         w')).
Proof.
  unfold close, exec, bind, this, gets. simpl.
  destruct (listenSocket (self w)) as [s|] eqn:Hs; simpl.
  - split; [done|]. split; [done|]. intros s' handler _.
    rewrite listen_run. simpl. by rewrite Hs.
  - rewrite app_nil_r. by destruct w.
Qed.

(** ** The paths that send nothing *)

(** X4: with a handler installed, a payload that does not parse is passed
    to the handler as an error and ends the turn with nothing awaited; no
    turn that receives a payload connects or sends anything; and a handler
    whose result is a rejection leaves the server exactly as it was. *)
Theorem server_silent_paths handler w :
  onRequest (self w) = Some handler ->
  (forall err,
     onMessage (mkMessage (inl err)) w =
     (None, mkWorld (self w) (trace w ++ [HandlerCalled (Some err) None])))
  /\ (forall message,
        self (exec (onMessage message) w) = self w
        /\ filter isOutbound (trace (exec (onMessage message) w)) =
             filter isOutbound (trace w))
  /\ (forall messageObject e w2,
        exec (afterAwait messageObject (Throws e)) w2 = w2).
Proof.
  intros Hh.
  assert (Herr : forall err,
    onMessage (mkMessage (inl err)) w =
    (None, mkWorld (self w) (trace w ++ [HandlerCalled (Some err) None]))).
  { intros err. unfold onMessage, callOnRequest, bind, this, gets, perform, ret.
    simpl. by rewrite Hh. }
  split; [done|]. split; [|done].
  intros [[err|messageObject]]; unfold exec.
  - rewrite Herr. simpl. split; [done|].
    rewrite filter_app. simpl. by rewrite app_nil_r.
  - rewrite (ServerProperties.listener_run _ handler) by done. simpl.
    split; [done|]. rewrite filter_app. simpl. by rewrite app_nil_r.
Qed.

(** ** The reply channels *)

Lemma afterAwait_world messageObject data w :
  let uri := req_sourceUri messageObject in
  let ss := socketStorage (self w) in
  let s := acquired (getPushSocketIdentity pid) uri ss in
  let response :=
    mkResponse data (Some (listenUri (self w))) (req_id messageObject) in
  exec (afterAwait messageObject (Returns data)) w =
  mkWorld
    (mkServer (port (self w)) (protocol (self w)) (listenSocket (self w))
       (Some (default (getSystemHost.getSystemHost hostnameOutput osHostname)
                (host (self w))))
       (onRequest (self w))
       (match JsMap.get uri ss with
        | Some _ => ss
        | None => JsMap.set uri s ss
        end))
    (trace w ++ match JsMap.get uri ss with
                | Some _ => [Sent s (Response response)]
                | None => [Connected s; Sent s (Response response)]
                end).
Proof.
  unfold CommunicationServer.afterAwait, exec, bind. rewrite getListenUri_run.
  destruct w as [[prt prot ls hst h ss] tr].
  unfold sendResponse, getPushSocket, createPushSocket, acquired, bind, this,
    gets, update, modify, perform, ret.
  cbn -[pretty String.append JsMap.get JsMap.set app Notions.listenUri].
  destruct (JsMap.get (req_sourceUri messageObject) ss) eqn:Hget;
    cbn -[pretty String.append JsMap.get JsMap.set app Notions.listenUri];
    rewrite <- ?app_assoc; reflexivity.
Qed.

Lemma acquired_cached identity uri m :
  JsMap.get uri
    (match JsMap.get uri m with
     | Some _ => m
     | None => JsMap.set uri (acquired identity uri m) m
     end) = Some (acquired identity uri m).
Proof.
  unfold acquired. destruct (JsMap.get uri m) eqn:Hget; [done|].
  apply get_set_eq.
Qed.

Lemma afterAwait_listenUri messageObject result w :
  listenUri (self (exec (afterAwait messageObject result) w)) =
  listenUri (self w).
Proof.
  destruct result as [data|e]; [|done].
  rewrite afterAwait_world. unfold Notions.listenUri. simpl.
  by destruct (host (self w)).
Qed.

(** X5: two replies to requests that name the same origin go out on one
    push socket: the first reply leaves that socket cached under the origin
    URI, and the second reply's only effect is one send on it, with no new
    connection and the cache unchanged. *)
Theorem replies_share_channel request1 request2 data1 data2 w :
  req_sourceUri request1 = req_sourceUri request2 ->
  let uri := req_sourceUri request1 in
  let w1 := exec (afterAwait request1 (Returns data1)) w in
  let w2 := exec (afterAwait request2 (Returns data2)) w1 in
  exists pushSocket setup,
    trace w1 = trace w ++ setup
               ++ [Sent pushSocket
                     (Response (mkResponse data1 (Some (listenUri (self w)))
                                  (req_id request1)))]
    /\ JsMap.get uri (socketStorage (self w1)) = Some pushSocket
    /\ trace w2 = trace w1
                  ++ [Sent pushSocket
                        (Response (mkResponse data2 (Some (listenUri (self w)))
                                     (req_id request2)))]
    /\ socketStorage (self w2) = socketStorage (self w1).
Proof.
  intros Huri uri w1 w2.
  set (s := acquired (getPushSocketIdentity pid) uri (socketStorage (self w))).
  assert (Hw1 := afterAwait_world request1 data1 w). cbv zeta in Hw1.
  fold uri in Hw1. fold s in Hw1. fold w1 in Hw1.
  assert (Hget1 : JsMap.get uri (socketStorage (self w1)) = Some s).
  { rewrite Hw1. simpl. apply acquired_cached. }
  assert (Hluri : listenUri (self w1) = listenUri (self w))
    by apply afterAwait_listenUri.
  assert (Hw2 := afterAwait_world request2 data2 w1). cbv zeta in Hw2.
  rewrite <- Huri in Hw2. fold uri in Hw2. rewrite Hget1 in Hw2.
  fold w2 in Hw2. rewrite Hluri in Hw2.
  assert (Hacq : acquired (getPushSocketIdentity pid) uri
                   (socketStorage (self w1)) = s).
  { unfold acquired at 1. by rewrite Hget1. }
  rewrite Hacq in Hw2.
  exists s, (match JsMap.get uri (socketStorage (self w)) with
             | Some _ => []
             | None => [Connected s]
             end).
  split; [|split; [done|split]].
  - rewrite Hw1. simpl. by destruct (JsMap.get uri _).
  - by rewrite Hw2.
  - by rewrite Hw2.
Qed.

(** ** What holds in every state of a server *)

Local Abbreviation step := (serverStep pid hostnameOutput osHostname).

(** The facts a turn keeps: a well-formed reply cache, and a listening
    socket, if any, that is the pull socket bound at the server's URI, with
    a handler installed. *)
Lemma step_keeps w w' :
  step w w' ->
  (cacheOk (getPushSocketIdentity pid) (socketStorage (self w))
   /\ forall s, listenSocket (self w) = Some s ->
        s = mkSocket pull (getListenSocketIdentity pid) (listenUri (self w))
        /\ is_Some (onRequest (self w))) ->
  (port (self w') = port (self w)
   /\ protocol (self w') = protocol (self w)
   /\ listenUri (self w') = listenUri (self w))
  /\ cacheOk (getPushSocketIdentity pid) (socketStorage (self w'))
  /\ forall s, listenSocket (self w') = Some s ->
       s = mkSocket pull (getListenSocketIdentity pid) (listenUri (self w'))
       /\ is_Some (onRequest (self w')).
Proof.
  intros Hstep [Hcache Hbound]. destruct Hstep as [h w|w|message w|m result w].
  - unfold exec. rewrite listen_run.
    destruct (listenSocket (self w)) as [s0|] eqn:Hls; simpl.
    + split; [done|]. split; [done|]. by rewrite Hls.
    + rewrite listenUri_resolved_eq.
      assert (Heq : listenUri
                (mkServer (port (self w)) (protocol (self w)) (Some
                   (mkSocket pull (getListenSocketIdentity pid)
                      (listenUri (self w))))
                   (host (self w)) (Some h) (socketStorage (self w))) =
              listenUri (self w)) by (by destruct (self w)).
      rewrite Heq. split; [done|]. split; [done|]. by intros s [= <-].
  - destruct (server_close_keeps_channels_aux w) as [-> _]. auto.
  - assert (Hself : self (exec (onMessage message) w) = self w).
    { unfold exec, onMessage, callOnRequest, bind, this, gets, perform, ret.
      destruct message as [[err|m]]; simpl;
        destruct (onRequest (self w)); simpl; try done;
        by destruct (req_responseWanted m). }
    rewrite Hself. auto.
  - destruct result as [data|e]; [|auto].
    split; [|split].
    + rewrite afterAwait_listenUri, afterAwait_world. done.
    + rewrite afterAwait_world. simpl.
      destruct (JsMap.get (req_sourceUri m) (socketStorage (self w))) eqn:Hget;
        [done|].
      unfold acquired. rewrite Hget. simpl. by apply cacheOk_set.
    + rewrite afterAwait_listenUri, afterAwait_world. simpl. apply Hbound.
Qed.

(** X6: in every state a server reaches from its construction, the port,
    the protocol and the listening URI are those it was built with; the
    reply cache holds at most one push socket per origin URI, each connected
    to the URI it is filed under; and the listening socket, once there is
    one, is the pull socket bound at the listening URI, with a handler
    installed. *)
Theorem server_invariant options w0 w :
  constructor options = inr w0 ->
  rtc step w0 w ->
  port (self w) = opt_port options
  /\ protocol (self w) = default tcp (opt_protocol options)
  /\ listenUri (self w) = listenUri (self w0)
  /\ cacheOk (getPushSocketIdentity pid) (socketStorage (self w))
  /\ forall s, listenSocket (self w) = Some s ->
       s = mkSocket pull (getListenSocketIdentity pid) (listenUri (self w0))
       /\ is_Some (onRequest (self w)).
Proof.
  intros Hnew Hreach.
  assert (H0 : port (self w0) = opt_port options
               /\ protocol (self w0) = default tcp (opt_protocol options)
               /\ socketStorage (self w0) = JsMap.empty
               /\ listenSocket (self w0) = None).
  { unfold constructor in Hnew.
    destruct (validateOptions _ _); [done|]. by injection Hnew as <-. }
  destruct H0 as (Hport & Hprot & Hss & Hls).
  revert w Hreach. apply rtc_ind_r.
  - split; [done|]. split; [done|]. split; [done|]. split.
    + rewrite Hss. apply cacheOk_empty.
    + intros s Hs. by rewrite Hls in Hs.
  - intros w1 w2 Hreach Hstep IH. destruct IH as (I1 & I2 & I3 & I4 & I5).
    destruct (step_keeps w1 w2 Hstep) as ((K1 & K2 & K3) & K4 & K5).
    { split; [done|]. intros s Hs. rewrite I3. by apply I5. }
    split; [congruence|]. split; [congruence|]. split; [congruence|].
    split; [done|]. intros s Hs. rewrite <- I3, <- K3. by apply K5.
Qed.
End Server.

End ServerCoverage.

(** * The rest of the client *)

Module ClientCoverage.
Import CommunicationClient Notions Coverage JsMapFacts CacheFacts
  ClientProperties.
Local Open Scope state_scope.

Section Client.
Variable pid : Z.
Variable hostnameOutput : string.
Variable osHostname : string.
Variable clock : nat -> Z.

Local Abbreviation sendRaw := (sendRaw pid hostnameOutput osHostname clock).
Local Abbreviation send := (send pid hostnameOutput osHostname clock).
Local Abbreviation fire := (fire pid hostnameOutput osHostname clock).
Local Abbreviation sendMulti := (sendMulti pid hostnameOutput osHostname clock).
Local Abbreviation checkTimeouts := (checkTimeouts clock).
Local Abbreviation bindUri := (bindUri hostnameOutput osHostname).
Local Abbreviation listenerOf := (listenerOf pid hostnameOutput osHostname).
Local Abbreviation clientId := (getClientSocketIdentity pid).

(** ** The whole effect of [sendRaw] *)

Lemma sendRaw_world address action params responseWanted w :
  let c := self w in
  let uri := uriOf address c in
  let s := acquired clientId uri (socketStorage c) in
  let m := eval (sendRaw address action params responseWanted) w in
  exec (sendRaw address action params responseWanted) w =
  mkWorld
    (mkClient (bindPort c) (protocol c) (checkTimeoutsInterval c)
       (defaultTimeout c)
       (Some (resolvedHost hostnameOutput osHostname c))
       (match bindSocket c with
        | Some s0 => Some s0
        | None => if responseWanted then Some (listenerOf c) else None
        end)
       (nextIdAfter c) (callbackStorage c)
       (match JsMap.get uri (socketStorage c) with
        | Some _ => socketStorage c
        | None => JsMap.set uri s (socketStorage c)
        end)
       (checkTimeoutsId c))
    (promises w) (timers w) (S (reads w))
    (trace w
     ++ (match bindSocket c with
         | Some _ => []
         | None =>
             if responseWanted
             then [Bound (listenerOf c); Listening (listenerOf c)]
             else []
         end)
     ++ (match JsMap.get uri (socketStorage c) with
         | Some _ => []
         | None => [Connected s]
         end)
     ++ [Sent s (Request m)]).
Proof.
  cbv zeta. rewrite sendRaw_message.
  unfold acquired, uriOf, Coverage.listenerOf, nextIdAfter, resolvedHost,
    Notions.bindUri.
  destruct responseWanted; sendRaw_cases address.
  all: rewrite <- ?app_assoc; reflexivity.
Qed.

(** ** Construction *)


(** ** Host resolution and the outbound cache *)

(** X8: [getHost] returns the configured host, or else the system host,
    and remembers it: a second call returns the same host and changes
    nothing, so the system host is looked up at most once; a configured
    host is returned with no change at all. *)
Theorem getHost_resolves_once w :
  let h := eval (getHost hostnameOutput osHostname) w in
  let w1 := exec (getHost hostnameOutput osHostname) w in
  h = resolvedHost hostnameOutput osHostname (self w)
  /\ w1 = withSelf (setHost (Some h)) w
  /\ getHost hostnameOutput osHostname w1 = (h, w1)
  /\ (forall h0, host (self w) = Some h0 -> h = h0 /\ w1 = w).
Proof.
  destruct w as [[? ? ? ? hst ? ? ? ? ?] ? ? ? ?].
  unfold getHost, eval, exec, bind, this, gets, update, modify, ret, withSelf,
    resolvedHost, CommunicationClient.getSystemHost.
  destruct hst as [h0|]; simpl; repeat split; congruence.
Qed.

(** X9: [getPushSocket] returns the socket cached for the URI, or else
    connects a new push socket to it and caches it; either way the cache
    then holds the returned socket under that URI and no other entry has
    changed, so that a second call returns the same socket with no effect
    at all. *)
Theorem push_socket_acquired_once uri w :
  let s := eval (getPushSocket pid uri) w in
  let w1 := exec (getPushSocket pid uri) w in
  s = acquired clientId uri (socketStorage (self w))
  /\ JsMap.get uri (socketStorage (self w1)) = Some s
  /\ (forall uri', uri' <> uri ->
        JsMap.get uri' (socketStorage (self w1)) =
        JsMap.get uri' (socketStorage (self w)))
  /\ trace w1 = trace w ++ match JsMap.get uri (socketStorage (self w)) with
                           | Some _ => []
                           | None => [Connected s]
                           end
  /\ getPushSocket pid uri w1 = (s, w1).
Proof.
  destruct w as [[? ? ? ? ? ? ? ? ss ?] ? ? ? tr].
  unfold getPushSocket, createPushSocket, eval, exec, bind, this, gets, update,
    modify, perform, ret, withSelf, acquired.
  cbn -[pretty String.append JsMap.get JsMap.set app].
  destruct (JsMap.get uri ss) as [s0|] eqn:Hget;
    cbn -[pretty String.append JsMap.get JsMap.set app].
  - rewrite Hget, app_nil_r. done.
  - rewrite get_set_eq. split; [done|]. split; [done|]. split; [|done].
    intros uri' Hne. rewrite get_set. by destruct (decide (uri = uri')).
Qed.

(** ** The inbound listener is bound lazily *)

Lemma sendRaw_binding address action params responseWanted w :
  filter isBinding
    (trace (exec (sendRaw address action params responseWanted) w)) =
  filter isBinding (trace w)
  ++ match bindSocket (self w) with
     | Some _ => []
     | None =>
         if responseWanted
         then [Bound (listenerOf (self w)); Listening (listenerOf (self w))]
         else []
     end.
Proof.
  rewrite sendRaw_world. simpl. rewrite !filter_app. simpl.
  destruct (JsMap.get _ (socketStorage (self w))); simpl; rewrite app_nil_r;
    destruct (bindSocket (self w)); try done; by destruct responseWanted.
Qed.

Lemma send_world address action params w :
  let m := eval (sendRaw address action params true) w in
  let w1 := exec (sendRaw address action params true) w in
  let p := length (promises w) in
  send address action params w =
  (p, mkWorld
        (setCallbackStorage
           (JsMap.set (nextId (self w))
              (mkCallback (req_createdAt m) (req_expiresAt m) p p action
                 (req_sourceUri m))
              (callbackStorage (self w))) (self w1))
        (promises w ++ [Pending]) (timers w) (S (reads w)) (trace w1)).
Proof.
  intros m w1 p. rewrite send_run. fold m w1.
  destruct (sendRaw_frame pid hostnameOutput osHostname clock address action
              params true w) as (Hcb & Hpr & _). fold w1 in Hcb, Hpr.
  assert (Hid : req_id m = nextId (self w)) by (subst m; by rewrite sendRaw_message).
  rewrite Hcb, Hpr, Hid. fold p. do 2 f_equal.
  all: subst w1; by rewrite sendRaw_world.
Qed.

(** X10: [fire] never binds the inbound listener, whereas [send] leaves
    the client bound: when no listener was bound it binds the pull socket at
    the client's own URI and starts listening on it, once, and when one was
    bound it keeps it and binds nothing. The origin URI written into the
    request is the URI that listener is bound at. *)
Theorem listener_bound_lazily address action params w :
  let w1 := exec (fire address action params) w in
  let w2 := exec (send address action params) w in
  let m := eval (sendRaw address action params true) w in
  bindSocket (self w1) = bindSocket (self w)
  /\ filter isBinding (trace w1) = filter isBinding (trace w)
  /\ bindSocket (self w2) =
       Some (default (listenerOf (self w)) (bindSocket (self w)))
  /\ filter isBinding (trace w2) =
       filter isBinding (trace w)
       ++ match bindSocket (self w) with
          | Some _ => []
          | None => [Bound (listenerOf (self w)); Listening (listenerOf (self w))]
          end
  /\ req_sourceUri m = endpoint (listenerOf (self w)).
Proof.
  intros w1 w2 m.
  assert (H1 : w1 = exec (sendRaw address action params false) w).
  { subst w1. unfold exec at 1. by rewrite fire_run. }
  assert (H2 : trace w2 = trace (exec (sendRaw address action params true) w)
               /\ bindSocket (self w2) =
                    bindSocket (self (exec (sendRaw address action params true) w))).
  { subst w2. unfold exec at 1 3. rewrite send_world. simpl.
    by destruct (self (exec _ w)). }
  destruct H2 as [Htr Hbs]. rewrite H1, Htr, Hbs, !sendRaw_binding.
  subst m. rewrite sendRaw_message, !sendRaw_world. simpl.
  repeat split; destruct (bindSocket (self w)); by rewrite ?app_nil_r.
Qed.

(** ** What the inbound listener leaves alone *)

(** X11: whatever payload arrives, the listener changes no field of the
    client but the store, connects and sends nothing, rejects nothing, and
    leaves every stored call whose id is not the payload's in place; a
    payload that does not parse produces one [error] event and nothing
    else. *)
Theorem listener_frame message w :
  let w' := exec (onMessage message) w in
  (forall m, setCallbackStorage m (self w') = setCallbackStorage m (self w))
  /\ timers w' = timers w
  /\ reads w' = reads w
  /\ (exists new,
        trace w' = trace w ++ new
        /\ (new = [] \/ new = [Emitted "error"]
            \/ exists p v, new = [ResolveCalled p v]))
  /\ (forall id,
        (forall r, JSON_parse message = Some r -> res_id r <> id) ->
        JsMap.get id (callbackStorage (self w')) =
        JsMap.get id (callbackStorage (self w)))
  /\ (JSON_parse message = None ->
      w' = mkWorld (self w) (promises w) (timers w) (reads w)
             (trace w ++ [Emitted "error"])).
Proof.
  intros w'. subst w'. unfold exec. rewrite onMessage_run.
  destruct (JSON_parse message) as [r|]; simpl.
  - destruct (JsMap.get (res_id r) (callbackStorage (self w))) as [cb|] eqn:Hget;
      simpl.
    + split; [by destruct (self w)|]. split; [done|]. split; [done|].
      split; [eexists; split; [done|]; right; right; eauto|].
      split; [|done]. intros id Hid. destruct (self w); simpl.
      rewrite get_delete. destruct (decide (res_id r = id)) as [Heq|]; [|done].
      by destruct (Hid r).
    + split; [done|]. split; [done|]. split; [done|].
      split; [exists []; rewrite app_nil_r; auto|]. done.
  - split; [done|]. split; [done|]. split; [done|].
    split; [eexists; split; [done|]; auto|]. done.
Qed.

(** ** Registration *)

(** X12: [send] returns a newly allocated, pending promise and files the
    call under the id it drew, with both resolvers of that promise and the
    request's creation and expiry times; every call stored under another id
    is untouched. When the id is free the store grows by that one entry;
    when a call is still stored under it (the counter has come round), the
    new call takes its place. *)
Theorem send_registers address action params w :
  let m := eval (sendRaw address action params true) w in
  let p := eval (send address action params) w in
  let w' := exec (send address action params) w in
  let id := nextId (self w) in
  p = length (promises w)
  /\ promises w' = promises w ++ [Pending]
  /\ JsMap.get id (callbackStorage (self w')) =
       Some (mkCallback (req_createdAt m) (req_expiresAt m) p p action
               (req_sourceUri m))
  /\ (forall id', id' <> id ->
        JsMap.get id' (callbackStorage (self w')) =
        JsMap.get id' (callbackStorage (self w)))
  /\ (JsMap.get id (callbackStorage (self w)) = None ->
      JsMap.keys (callbackStorage (self w')) =
      JsMap.keys (callbackStorage (self w)) ++ [id])
  /\ (forall old, JsMap.get id (callbackStorage (self w)) = Some old ->
      JsMap.keys (callbackStorage (self w')) =
      JsMap.keys (callbackStorage (self w))).
Proof.
  intros m p w' id.
  assert (Hp : p = length (promises w)).
  { subst p. unfold eval. by rewrite send_world. }
  rewrite Hp. subst w'. unfold exec.
  rewrite send_world. fold m. simpl.
  set (w1 := exec (sendRaw address action params true) w).
  destruct (self w1). simpl. fold id.
  split; [done|]. split; [done|]. split; [apply get_set_eq|].
  split; [|split].
  - intros id' Hne. rewrite get_set. by destruct (decide (id = id')).
  - apply keys_set_fresh.
  - intros old. apply keys_set_present.
Qed.

Lemma eval_mapM_cons {A B} (f : A -> State World B) a l w :
  eval (mapM f (a :: l)) w = eval (f a) w :: eval (mapM f l) (exec (f a) w).
Proof.
  unfold eval, exec. simpl. unfold bind, ret.
  destruct (f a w) as [b w1]. simpl. by destruct (mapM f l w1).
Qed.

(** X13: [sendMulti] returns one promise per address, in order: the next
    promises to be allocated, all new and pending when it returns, whatever
    the [responseWanted] argument. *)
Theorem sendMulti_promises addresses action params responseWanted w :
  eval (sendMulti addresses action params responseWanted) w =
    seq (length (promises w)) (length addresses)
  /\ promises (exec (sendMulti addresses action params responseWanted) w) =
       promises w ++ replicate (length addresses) Pending.
Proof.
  unfold CommunicationClient.sendMulti. revert w.
  induction addresses as [|a l IH]; intros w.
  - unfold eval, exec. simpl. by rewrite app_nil_r.
  - rewrite eval_mapM_cons, exec_mapM_cons.
    destruct (IH (exec (send a action params) w)) as [-> ->].
    unfold eval, exec. rewrite send_world. simpl.
    rewrite length_app, <- app_assoc. simpl.
    by rewrite Nat.add_1_r.
Qed.

(** ** More on the loops that fail Pending Calls *)

Section Loops.
Variable cond : TCallbackInformation -> bool.
Variable e : Error.
Variable remove : bool.

Local Abbreviation loop ks :=
  (forEachKey callbackStorage ks (rejectWhen cond e remove)).

(** A loop that meets no entry to fail changes nothing. *)
Lemma loop_idle ks : forall w,
  (forall id callback,
     id ∈ ks -> JsMap.get id (callbackStorage (self w)) = Some callback ->
     cond callback = false) ->
  exec (loop ks) w = w.
Proof.
  induction ks as [|k ks IH]; intros w Hidle; [done|].
  rewrite loop_cons.
  assert (Hv : visit cond e remove k w = w).
  { unfold visit.
    destruct (JsMap.get k (callbackStorage (self w))) as [cb|] eqn:Hk; [|done].
    rewrite rejectWhen_run, (Hidle k cb); [done| |done].
    apply elem_of_cons; auto. }
  rewrite Hv. apply IH. intros id cb Hin. apply Hidle, elem_of_cons; auto.
Qed.

(** A loop whose entries to fail are all settled already leaves every
    promise as it is. *)
Lemma loop_promises_final ks : forall w,
  (forall id callback,
     id ∈ ks -> JsMap.get id (callbackStorage (self w)) = Some callback ->
     cond callback = true ->
     promises w !! cb_reject callback <> Some Pending) ->
  promises (exec (loop ks) w) = promises w.
Proof.
  induction ks as [|k ks IH]; intros w Hfinal; [done|].
  rewrite loop_cons.
  destruct (visit_effects cond e remove k w) as (_ & Hpr & _). cbv zeta in Hpr.
  assert (Hv : promises (visit cond e remove k w) = promises w).
  { rewrite Hpr.
    destruct (JsMap.get k (callbackStorage (self w))) as [cb|] eqn:Hk; [|done].
    destruct (cond cb) eqn:Hc; [|done].
    unfold settle.
    pose proof (Hfinal k cb) as Hne.
    destruct (promises w !! cb_reject cb) as [[]|]; try done.
    destruct Hne; try done. apply elem_of_cons; auto. }
  rewrite IH, Hv; [done|].
  intros id cb Hin Hget Hc. rewrite Hv.
  apply (Hfinal id cb); [apply elem_of_cons; auto| |done].
  by eapply visit_store_Some.
Qed.

(** The loop only ever adds calls of [reject]. *)
Lemma loop_trace_rejects ks w :
  exists new,
    trace (exec (loop ks) w) = trace w ++ new
    /\ filter isBinding new = []
    /\ filter isOutbound new = [].
Proof.
  destruct (loop_trace cond e remove ks w) as (new & Htr & Hsound & _).
  exists new. split; [done|].
  assert (Hall : Forall (fun ev => exists p, ev = RejectCalled p e) new).
  { apply Forall_forall. intros ev Hev. apply list_elem_of_In in Hev.
    destruct (Hsound ev Hev) as (id & cb & _ & _ & _ & ->). eauto. }
  clear Htr Hsound. induction Hall as [|ev new [p ->] _ [IH1 IH2]]; [done|].
  by rewrite !filter_cons_False by (simpl; tauto).
Qed.
End Loops.

(** ** The whole effect of the sweeper *)

Lemma sweep_store w id :
  JsMap.get id (callbackStorage (self (exec checkTimeouts w))) =
  match JsMap.get id (callbackStorage (self w)) with
  | Some callback =>
      if cb_expiresAt callback <=? clock (reads w) then None else Some callback
  | None => None
  end.
Proof.
  rewrite checkTimeouts_run. simpl. rewrite loop_store. simpl.
  destruct (JsMap.get id (callbackStorage (self w))) as [cb|] eqn:Hget; [|done].
  rewrite bool_decide_eq_true_2, andb_true_r.
  - unfold expired. by rewrite Z.gtb_ltb, Z.leb_antisym.
  - by apply list_elem_of_In, (get_Some_keys id cb).
Qed.

Lemma sweep_fields w :
  let w' := exec checkTimeouts w in
  (forall m, setCallbackStorage m (setCheckTimeoutsId None (self w')) =
             setCallbackStorage m (setCheckTimeoutsId None (self w)))
  /\ checkTimeoutsId (self w') = Some (timers w)
  /\ timers w' = S (timers w)
  /\ reads w' = S (reads w).
Proof.
  cbv zeta. rewrite checkTimeouts_run. simpl.
  set (w1 := mkWorld (self w) (promises w) (timers w) (S (reads w)) (trace w)).
  destruct (loop_rest (expired (clock (reads w)))
              (TimeoutError "Timeout error") true
              (JsMap.keys (callbackStorage (self w))) w1) as (Ht & Hr & Hf & _).
  rewrite Ht, Hr. simpl. split; [|by destruct (self (exec _ w1))].
  intros m. specialize (Hf m). simpl in Hf.
  match type of Hf with
  | setCallbackStorage m (self ?x) = _ => destruct (self x)
  end.
  destruct (self w). unfold setCallbackStorage, setCheckTimeoutsId in *.
  simpl in *. congruence.
Qed.

(** X14: a run of the sweeper advances the clock reading and re-arms the
    timer with the instance's interval, remembering the new timer; it
    changes no other field of the client but the store; and when no stored
    call has expired it leaves the store and every promise exactly as they
    were, its only effect being the new timer. *)
Theorem sweep_rearms w :
  let w' := exec checkTimeouts w in
  (forall m, setCallbackStorage m (setCheckTimeoutsId None (self w')) =
             setCallbackStorage m (setCheckTimeoutsId None (self w)))
  /\ checkTimeoutsId (self w') = Some (timers w)
  /\ timers w' = S (timers w)
  /\ reads w' = S (reads w)
  /\ ((forall id callback,
         JsMap.get id (callbackStorage (self w)) = Some callback ->
         clock (reads w) < cb_expiresAt callback) ->
      callbackStorage (self w') = callbackStorage (self w)
      /\ promises w' = promises w
      /\ trace w' =
           trace w ++ [TimerSet (timers w) (checkTimeoutsInterval (self w))]).
Proof.
  intros w'. destruct (sweep_fields w) as (H1 & H2 & H3 & H4). fold w' in H1, H2, H3, H4.
  split; [done|]. split; [done|]. split; [done|]. split; [done|].
  intros Hfresh. subst w'. rewrite checkTimeouts_run. simpl.
  rewrite loop_idle.
  - simpl. by destruct (self w).
  - intros id cb _ Hget. simpl in Hget. unfold expired.
    apply negb_false_iff. rewrite Z.gtb_ltb. apply Z.ltb_lt.
    by apply (Hfresh id).
Qed.

(** X15: a response that arrives after its call has expired and been
    swept is dropped: delivered right after the sweep it changes nothing,
    and the promise the sweep rejected with the timeout error stays
    rejected. *)
Theorem late_response_dropped r size callback w :
  JsMap.get (res_id r) (callbackStorage (self w)) = Some callback ->
  cb_expiresAt callback <= clock (reads w) ->
  let swept := exec checkTimeouts w in
  exec (onMessage (mkMessage (Some r) size)) swept = swept
  /\ (promises w !! cb_reject callback = Some Pending ->
      promises swept !! cb_reject callback =
        Some (Rejected (TimeoutError "Timeout error"))).
Proof.
  intros Hget Hexp swept. split.
  - apply onMessage_unknown. subst swept. rewrite sweep_store, Hget.
    by rewrite (proj2 (Z.leb_le _ _) Hexp).
  - intros Hpend. subst swept. rewrite checkTimeouts_run. simpl.
    apply (loop_promises_rejected _ _ _ _ _ (res_id r)); try done.
    + by apply list_elem_of_In, (get_Some_keys _ callback).
    + by apply expired_true.
Qed.

(** ** The whole effect of [close] *)

Lemma closeSockets_world ks : forall w,
  exec (forEachKey socketStorage ks
          (fun pushSocket _ => perform (Closed pushSocket))) w =
  mkWorld (self w) (promises w) (timers w) (reads w)
    (trace w
     ++ map Closed (omap (fun k => JsMap.get k (socketStorage (self w))) ks)).
Proof.
  induction ks as [|k ks IH]; intros w.
  - unfold exec. simpl. rewrite app_nil_r. by destruct w.
  - rewrite exec_forEachKey_cons. simpl.
    destruct (JsMap.get k (socketStorage (self w))) as [sock|]; [|apply IH].
    rewrite IH. unfold exec, perform. simpl. by rewrite <- app_assoc.
Qed.

Lemma omap_get_skip {K V} `{EqDecision K} (k0 : K) (v0 : V)
    (m : JsMap.t K V) (ks : list K) :
  k0 ∉ ks ->
  omap (fun k => JsMap.get k ((k0, v0) :: m)) ks =
  omap (fun k => JsMap.get k m) ks.
Proof.
  induction ks as [|k ks IH]; [done|].
  intros Hk0. apply not_elem_of_cons in Hk0 as [Hne Hk0].
  specialize (IH Hk0). csimpl in *. rewrite IH.
  by destruct (decide (k0 = k)).
Qed.

Lemma omap_get_keys {K V} `{EqDecision K} (m : JsMap.t K V) :
  NoDup (JsMap.keys m) ->
  omap (fun k => JsMap.get k m) (JsMap.keys m) = JsMap.values m.
Proof.
  induction m as [|[k0 v0] m IH]; [done|].
  intros Hnd.
  change (JsMap.keys ((k0, v0) :: m)) with (k0 :: JsMap.keys m) in *.
  change (JsMap.values ((k0, v0) :: m)) with (v0 :: JsMap.values m).
  apply NoDup_cons in Hnd as [Hk0 Hnd].
  assert (Hhead : forall (f : K -> option V) l,
            f k0 = Some v0 -> omap f (k0 :: l) = v0 :: omap f l).
  { intros f l Hf. csimpl. by rewrite Hf. }
  rewrite Hhead, (omap_get_skip k0 v0 m _ Hk0), (IH Hnd); [done|].
  simpl. by destruct (decide (k0 = k0)).
Qed.

Lemma closeTransport_world w :
  exec closeTransport w =
  mkWorld (setSocketStorage JsMap.empty (self w)) (promises w) (timers w)
    (reads w)
    (trace w
     ++ (match bindSocket (self w) with Some s => [Closed s] | None => [] end)
     ++ (match checkTimeoutsId (self w) with
         | Some t => [TimerCleared t]
         | None => []
         end)
     ++ map Closed
          (omap (fun k => JsMap.get k (socketStorage (self w)))
             (JsMap.keys (socketStorage (self w))))).
Proof.
  destruct w as [[? ? ? ? ? bs ? ? ss tm] ? ? ? tr].
  unfold closeTransport, Map_forEach, exec, bind, this, gets, update, modify,
    withSelf, clearTimeout, perform, ret.
  cbn -[forEachKey JsMap.keys app omap].
  destruct bs, tm; cbn -[forEachKey JsMap.keys app omap].
  all: match goal with
       | |- context [forEachKey socketStorage ?ks ?f ?w0] =>
           pose proof (closeSockets_world ks w0) as Hloop;
           unfold exec, perform in Hloop;
           destruct (forEachKey socketStorage ks f w0) as [u w3]
       end.
  all: simpl in Hloop; subst w3; simpl; rewrite <- ?app_assoc; reflexivity.
Qed.

Lemma close_world w :
  let w1 := exec closeTransport w in
  exec close w =
  exec (forEachKey callbackStorage (JsMap.keys (callbackStorage (self w)))
          (rejectWhen (fun _ => true) ClosedError false)) w1.
Proof.
  cbv zeta. rewrite close_split.
  unfold Map_forEach, exec at 1, bind, this, gets. simpl.
  by rewrite closeTransport_world.
Qed.

(** X16: [close] closes the listener if one is bound, cancels the
    sweeper's timer if one is set, closes every cached push socket in the
    order they were first used, and empties the cache; it then only calls
    [reject] with the closed error. Every other field of the client stays
    as it was - the closed listener and the cancelled timer included. *)
Theorem close_releases_transport w :
  NoDup (JsMap.keys (socketStorage (self w))) ->
  let w' := exec close w in
  self w' = setSocketStorage JsMap.empty (self w)
  /\ exists rejections,
       trace w' =
         trace w
         ++ (match bindSocket (self w) with Some s => [Closed s] | None => [] end)
         ++ (match checkTimeoutsId (self w) with
             | Some t => [TimerCleared t]
             | None => []
             end)
         ++ map Closed (JsMap.values (socketStorage (self w)))
         ++ rejections
       /\ forall ev, In ev rejections ->
            exists p, ev = RejectCalled p ClosedError.
Proof.
  intros Hnd w'. subst w'. rewrite close_world.
  set (w1 := exec closeTransport w).
  set (ks := JsMap.keys (callbackStorage (self w))).
  destruct (loop_rest (fun _ => true) ClosedError false ks w1)
    as (_ & _ & _ & Hself).
  destruct (loop_trace (fun _ => true) ClosedError false ks w1)
    as (new & Htr & Hsound & _).
  rewrite Hself by done. subst w1. rewrite closeTransport_world in *.
  split; [done|]. exists new. simpl in Htr. rewrite Htr, omap_get_keys by done.
  rewrite <- !app_assoc. split; [done|].
  intros ev Hev. destruct (Hsound ev Hev) as (_ & cb & _ & _ & _ & ->). eauto.
Qed.

Lemma settle_length p st (heap : list PromiseState) :
  length (settle p st heap) = length heap.
Proof.
  unfold settle. destruct (heap !! p) as [[]|]; try done. apply length_insert.
Qed.

Lemma loop_promises_length cond e remove ks : forall w,
  length (promises (exec (forEachKey callbackStorage ks
                            (rejectWhen cond e remove)) w)) =
  length (promises w).
Proof.
  induction ks as [|k ks IH]; intros w; [done|].
  rewrite loop_cons, IH.
  destruct (visit_effects cond e remove k w) as (_ & -> & _).
  destruct (JsMap.get k (callbackStorage (self w))) as [cb|]; [|done].
  destruct (cond cb); [|done]. apply settle_length.
Qed.

(** X17: a second [close] changes neither the client nor any promise:
    after the first the cache is empty, and every call still in the store
    has had its outcome. *)
Theorem close_twice w :
  let w1 := exec close w in
  let w2 := exec close w1 in
  socketStorage (self w1) = JsMap.empty
  /\ self w2 = self w1
  /\ promises w2 = promises w1.
Proof.
  intros w1 w2.
  set (ks := JsMap.keys (callbackStorage (self w))).
  set (t := exec closeTransport w).
  assert (Hw1 : w1 = exec (forEachKey callbackStorage ks
                             (rejectWhen (fun _ => true) ClosedError false)) t)
    by apply close_world.
  destruct (loop_rest (fun _ => true) ClosedError false ks t)
    as (_ & _ & _ & Hself). specialize (Hself eq_refl). rewrite <- Hw1 in Hself.
  assert (Ht : self t = setSocketStorage JsMap.empty (self w)
               /\ promises t = promises w).
  { subst t. by rewrite closeTransport_world. }
  destruct Ht as [Hts Htp].
  assert (Hss : socketStorage (self w1) = JsMap.empty).
  { rewrite Hself, Hts. by destruct (self w). }
  assert (Hst : callbackStorage (self w1) = callbackStorage (self w)).
  { rewrite Hself, Hts. by destruct (self w). }
  split; [done|].
  subst w2. rewrite close_world, Hst. fold ks.
  set (t1 := exec closeTransport w1).
  assert (Ht1 : self t1 = self w1 /\ promises t1 = promises w1).
  { subst t1. rewrite closeTransport_world. simpl. split; [|done].
    destruct (self w1); simpl in *. by rewrite Hss. }
  destruct Ht1 as [Ht1s Ht1p].
  destruct (loop_rest (fun _ => true) ClosedError false ks t1)
    as (_ & _ & _ & Hself1). rewrite (Hself1 eq_refl), Ht1s.
  split; [done|]. rewrite loop_promises_final; [done|].
  intros id cb Hin Hget _. rewrite Ht1s, Hst in Hget. rewrite Ht1p, Hw1.
  assert (Hgt : JsMap.get id (callbackStorage (self t)) = Some cb).
  { rewrite Hts. by destruct (self w). }
  destruct (promises t !! cb_reject cb) as [[| |]|] eqn:Hp.
  - by rewrite (loop_promises_rejected _ _ _ ks t id cb).
  - by rewrite (loop_promises_settled _ _ _ ks t _ _ Hp).
  - by rewrite (loop_promises_settled _ _ _ ks t _ _ Hp).
  - apply lookup_ge_None in Hp. intros Hq. apply lookup_lt_Some in Hq.
    rewrite loop_promises_length in Hq. lia.
Qed.

(** ** What a turn does to the client's configuration and transport *)

Local Abbreviation run := (clientRun pid hostnameOutput osHostname clock).
Local Abbreviation step := (clientStep pid hostnameOutput osHostname clock).

Lemma fields_apart c c' :
  (forall m, setCallbackStorage m (setCheckTimeoutsId None c') =
             setCallbackStorage m (setCheckTimeoutsId None c)) ->
  bindPort c' = bindPort c /\ protocol c' = protocol c
  /\ checkTimeoutsInterval c' = checkTimeoutsInterval c
  /\ defaultTimeout c' = defaultTimeout c /\ host c' = host c
  /\ bindSocket c' = bindSocket c /\ nextId c' = nextId c
  /\ socketStorage c' = socketStorage c.
Proof.
  intros H. specialize (H []). destruct c, c'. simpl in *.
  injection H as -> -> -> -> -> -> -> ->. done.
Qed.

Lemma filter_binding_closed l : filter isBinding (map Closed l) = [].
Proof.
  induction l as [|x l IH]; [done|].
  simpl. by rewrite filter_cons_False by (simpl; tauto).
Qed.

Local Abbreviation stepSummary := (stepSummary pid hostnameOutput osHostname).

Lemma sendRaw_summary address action params responseWanted w :
  stepSummary w (exec (sendRaw address action params responseWanted) w).
Proof.
  unfold Coverage.stepSummary.
  rewrite sendRaw_binding, sendRaw_world. simpl.
  split; [|split; [|split]].
  - repeat split.
  - by right.
  - destruct (JsMap.get _ (socketStorage (self w))) as [s0|] eqn:Hget;
      [by left|].
    right. right. eexists. split; [exact Hget|].
    unfold acquired. by rewrite Hget.
  - destruct (bindSocket (self w)); [left; by rewrite app_nil_r|].
    destruct responseWanted; [by right|left; by rewrite app_nil_r].
Qed.

Lemma summary_of_store_change w w' :
  (forall m, setCallbackStorage m (setCheckTimeoutsId None (self w')) =
             setCallbackStorage m (setCheckTimeoutsId None (self w))) ->
  filter isBinding (trace w') = filter isBinding (trace w) ->
  stepSummary w w'.
Proof.
  intros Hf Htr. destruct (fields_apart _ _ Hf)
    as (H1 & H2 & H3 & H4 & H5 & H6 & H7 & H8).
  unfold Coverage.stepSummary. split; [|auto].
  repeat split; try done. unfold Notions.bindUri. by rewrite H1, H2, H5.
Qed.

Lemma run_summary w w' : run w w' -> stepSummary w w'.
Proof.
  intros [address action params w0|address action params w0|message w0|w0].
  - pose proof (sendRaw_summary address action params true w0) as Hs.
    unfold exec at 1. rewrite send_world. simpl.
    set (w1 := exec (sendRaw address action params true) w0) in *.
    unfold Coverage.stepSummary in *. simpl.
    by destruct (self w1).
  - unfold exec. rewrite fire_run. apply sendRaw_summary.
  - apply summary_of_store_change.
    + unfold exec. rewrite onMessage_run.
      destruct (JSON_parse message) as [r|]; [|done]. simpl.
      destruct (JsMap.get _ _); [|done]. simpl. by destruct (self w0).
    + unfold exec. rewrite onMessage_run.
      destruct (JSON_parse message) as [r|]; simpl.
      * destruct (JsMap.get _ _); [|done]. simpl.
        rewrite filter_app. simpl. by rewrite app_nil_r.
      * rewrite filter_app. simpl. by rewrite app_nil_r.
  - apply summary_of_store_change; [apply sweep_fields|].
    rewrite checkTimeouts_run. simpl.
    match goal with
    | |- context [exec (forEachKey callbackStorage ?ks ?f) ?w1] =>
        destruct (loop_trace_rejects (expired (clock (reads w0)))
                    (TimeoutError "Timeout error") true ks w1)
          as (new & -> & Hb & _)
    end.
    simpl. rewrite !filter_app, Hb. simpl. by rewrite !app_nil_r.
Qed.

Lemma step_summary w w' : step w w' -> stepSummary w w'.
Proof.
  intros [w0 w1 Hrun|w0]; [by apply run_summary|].
  rewrite close_world.
  set (t := exec closeTransport w0).
  set (ks := JsMap.keys (callbackStorage (self w0))).
  destruct (loop_rest (fun _ => true) ClosedError false ks t)
    as (_ & _ & _ & Hself).
  destruct (loop_trace_rejects (fun _ => true) ClosedError false ks t)
    as (new & Htr & Hb & _).
  unfold Coverage.stepSummary. rewrite (Hself eq_refl), Htr.
  subst t. rewrite closeTransport_world. simpl.
  split; [|split; [|split]].
  - repeat split; by destruct (self w0).
  - left. by destruct (self w0).
  - right. left. by destruct (self w0).
  - left. split; [by destruct (self w0)|].
    rewrite !filter_app, Hb, filter_binding_closed.
    destruct (bindSocket (self w0)), (checkTimeoutsId (self w0)); simpl;
      by rewrite !app_nil_r.
Qed.

Lemma constructed options w0 :
  constructor options = inr w0 ->
  w0 = mkWorld
         (mkClient (opt_bindPort options) (default tcp (opt_protocol options))
            (orDefault (opt_checkTimeoutsInterval options) CHECK_TIMEOUTS_INTERVAL)
            (orDefault (opt_defaultTimeout options) DEFAULT_TIMEOUT)
            (opt_host options) None 0 JsMap.empty JsMap.empty (Some 0%nat))
         [] 1 0
         [TimerSet 0%nat
            (orDefault (opt_checkTimeoutsInterval options)
               CHECK_TIMEOUTS_INTERVAL)].
Proof.
  unfold constructor. destruct (validateOptions _ _ _ _); [done|].
  by intros [= <-].
Qed.

(** [fireMulti] and [sendMulti] are runs of [fire] and [send] turns. *)
Lemma multi_reachable addresses action params responseWanted w :
  rtc run w
    (exec (fireMulti pid hostnameOutput osHostname clock addresses action params)
       w)
  /\ rtc run w (exec (sendMulti addresses action params responseWanted) w).
Proof.
  unfold CommunicationClient.fireMulti, CommunicationClient.sendMulti.
  revert w. induction addresses as [|a l IH]; intros w; [done|].
  rewrite exec_forEach_cons, exec_mapM_cons. split.
  - eapply rtc_l; [apply client_fire|apply IH].
  - eapply rtc_l; [apply client_send|apply IH].
Qed.

(** X18: in every state a client reaches from its construction - through
    [send], [fire], inbound payloads, sweeps and [close] - the port, the
    protocol, the two timing options and the client's own URI are those it
    was built with; the counter lies within 0..10,000,000; the outbound
    cache holds at most one push socket per destination, each connected to
    the URI it is filed under; and the listener has been bound at most once,
    at the client's own URI. *)
Theorem client_invariant options w0 w :
  constructor options = inr w0 ->
  rtc step w0 w ->
  (bindPort (self w) = opt_bindPort options
   /\ protocol (self w) = default tcp (opt_protocol options)
   /\ checkTimeoutsInterval (self w) =
        orDefault (opt_checkTimeoutsInterval options) CHECK_TIMEOUTS_INTERVAL
   /\ defaultTimeout (self w) =
        orDefault (opt_defaultTimeout options) DEFAULT_TIMEOUT
   /\ bindUri (self w) = bindUri (self w0))
  /\ 0 <= nextId (self w) <= MAX_ID
  /\ cacheOk clientId (socketStorage (self w))
  /\ (bindSocket (self w) = None
      \/ bindSocket (self w) = Some (listenerOf (self w0)))
  /\ filter isBinding (trace w) =
       match bindSocket (self w) with
       | Some s => [Bound s; Listening s]
       | None => []
       end.
Proof.
  intros Hnew Hreach. apply constructed in Hnew.
  revert w Hreach. apply rtc_ind_r.
  - subst w0. simpl. split; [done|]. split; [unfold MAX_ID; lia|].
    split; [apply cacheOk_empty|]. split; [by left|done].
  - intros w1 w2 _ Hstep ((I1 & I2 & I3 & I4 & I5) & Hid & Hcache & Hbs & Htr).
    destruct (step_summary _ _ Hstep)
      as ((S1 & S2 & S3 & S4 & S5) & Sid & Sss & Sbs).
    assert (HL : listenerOf (self w1) = listenerOf (self w0)).
    { unfold Coverage.listenerOf. by rewrite I5. }
    split; [repeat split; congruence|]. split; [|split; [|split]].
    + destruct Sid as [->| ->]; [done|]. unfold nextIdAfter, MAX_ID in *.
      destruct (Z.gtb_spec (nextId (self w1) + 1) 10000000); lia.
    + destruct Sss as [-> | [-> | (uri & Hget & ->)]];
        [done|apply cacheOk_empty|by apply cacheOk_set].
    + destruct Sbs as [[-> _]|(_ & -> & _)]; [done|right; by rewrite HL].
    + destruct Sbs as [[-> ->]|(Hnone & -> & ->)]; [done|].
      rewrite Htr, Hnone. done.
Qed.

(** ** A settled promise keeps its outcome *)



(** ** Every stored call is awaited *)

Lemma awaiting_same w w' :
  callbackStorage (self w') = callbackStorage (self w) ->
  promises w' = promises w ->
  awaiting w -> awaiting w'.
Proof. unfold awaiting. by intros -> ->. Qed.

Lemma send_awaiting address action params w :
  awaiting w -> awaiting (exec (send address action params) w).
Proof.
  intros [Hcalls Hapart]. unfold exec. rewrite send_world. simpl.
  set (m := eval (sendRaw address action params true) w).
  set (p := length (promises w)).
  set (new := mkCallback (req_createdAt m) (req_expiresAt m) p p action
                (req_sourceUri m)).
  assert (Hst : callbackStorage
                  (setCallbackStorage
                     (JsMap.set (nextId (self w)) new (callbackStorage (self w)))
                     (self (exec (sendRaw address action params true) w))) =
                JsMap.set (nextId (self w)) new (callbackStorage (self w))).
  { by destruct (self (exec _ w)). }
  assert (Hold : forall id cb,
            JsMap.get id (callbackStorage (self w)) = Some cb ->
            cb_reject cb <> p).
  { intros id cb Hget Heq. destruct (Hcalls id cb Hget) as [_ Hpend].
    apply lookup_lt_Some in Hpend. subst p. lia. }
  unfold awaiting. simpl. rewrite ?Hst. fold m p new. split.
  - intros id cb. rewrite get_set.
    destruct (decide (nextId (self w) = id)) as [_|_].
    + intros [= <-]. simpl. split; [done|]. by apply list_lookup_middle.
    + intros Hget. destruct (Hcalls id cb Hget) as [Hres Hpend].
      split; [done|]. by apply lookup_app_l_Some.
  - intros id1 id2 cb1 cb2. rewrite !get_set.
    destruct (decide (nextId (self w) = id1)) as [<-|H1],
             (decide (nextId (self w) = id2)) as [<-|H2]; try done.
    + intros [= <-] Hget2 Heq. simpl in Heq. by destruct (Hold id2 cb2).
    + intros Hget1 [= <-] Heq. simpl in Heq. by destruct (Hold id1 cb1).
    + apply Hapart.
Qed.

Lemma message_awaiting message w :
  awaiting w -> awaiting (exec (onMessage message) w).
Proof.
  intros [Hcalls Hapart]. unfold exec. rewrite onMessage_run.
  destruct (JSON_parse message) as [r|]; [|done]. simpl.
  destruct (JsMap.get (res_id r) (callbackStorage (self w))) as [cb|] eqn:Hget;
    [|done].
  unfold awaiting. simpl.
  assert (Hst : callbackStorage
                  (setCallbackStorage
                     (JsMap.delete (res_id r) (callbackStorage (self w)))
                     (self w)) =
                JsMap.delete (res_id r) (callbackStorage (self w))).
  { by destruct (self w). }
  rewrite ?Hst. split.
  - intros id cb'. rewrite get_delete.
    destruct (decide (res_id r = id)) as [|Hne]; [done|]. intros Hget'.
    destruct (Hcalls id cb' Hget') as [Hres Hpend]. split; [done|].
    rewrite settle_other; [done|]. intros Heq.
    destruct (Hcalls _ cb Hget) as [Hres0 _]. rewrite Hres0 in Heq.
    by destruct Hne; apply (Hapart _ _ cb cb').
  - intros id1 id2 cb1 cb2. rewrite !get_delete.
    destruct (decide (res_id r = id1)), (decide (res_id r = id2)); try done.
    apply Hapart.
Qed.

Lemma sweep_awaiting w :
  awaiting w -> awaiting (exec checkTimeouts w).
Proof.
  intros [Hcalls Hapart]. unfold awaiting. split.
  - intros id cb. rewrite sweep_store.
    destruct (JsMap.get id (callbackStorage (self w))) as [cb0|] eqn:Hget;
      [|done].
    destruct (Z.leb_spec (cb_expiresAt cb0) (clock (reads w))) as [|Hlater];
      [done|].
    intros [= <-]. destruct (Hcalls id cb0 Hget) as [Hres Hpend].
    split; [done|]. rewrite checkTimeouts_run. simpl.
    rewrite loop_promises_other; [done|].
    intros id' cb' _ Hget' Hexp Heq. simpl in Hget'.
    assert (id' = id) as -> by by apply (Hapart _ _ cb' cb0).
    assert (cb' = cb0) as -> by congruence.
    apply expired_true in Hexp. lia.
  - intros id1 id2 cb1 cb2. rewrite !sweep_store.
    destruct (JsMap.get id1 _) as [c1|] eqn:H1; [|done].
    destruct (JsMap.get id2 _) as [c2|] eqn:H2; [|by destruct (_ <=? _)].
    destruct (_ <=? _); [done|]. destruct (_ <=? _); [done|].
    intros [= <-] [= <-]. by apply Hapart.
Qed.

Lemma run_awaiting w w' : run w w' -> awaiting w -> awaiting w'.
Proof.
  intros [address action params w0|address action params w0|message w0|w0].
  - apply send_awaiting.
  - apply awaiting_same; unfold exec; rewrite fire_run; simpl;
      by rewrite sendRaw_world.
  - apply message_awaiting.
  - apply sweep_awaiting.
Qed.

(** X20: as long as a client has not been closed, every call in its store
    is awaited: in every state reached from construction through [send],
    [fire], inbound payloads and sweeps, each stored call holds the two
    resolvers of one promise, that promise is still pending, and no two
    stored calls share a promise. *)
Theorem calls_stay_awaited options w0 w :
  constructor options = inr w0 ->
  rtc run w0 w ->
  awaiting w.
Proof.
  intros Hnew Hreach. apply constructed in Hnew.
  revert w Hreach. apply rtc_ind_r.
  - subst w0. by split.
  - intros w1 w2 _ Hrun IH. by apply (run_awaiting w1).
Qed.

(** X21: on a client whose stored calls are awaited, the call made by a
    [send] expires at the time the call read the clock plus the timeout in
    force; a sweep run next leaves the call stored and its promise pending
    when it reads a time before that expiry, and when it reads the expiry
    time or later it removes the call and rejects the promise with the
    timeout error. *)
Theorem call_expires_on_schedule address action params w :
  awaiting w ->
  let p := eval (send address action params) w in
  let w1 := exec (send address action params) w in
  let expiry :=
    clock (reads w) + orDefault (timeout params) (defaultTimeout (self w)) in
  let time := clock (reads w1) in
  let swept := exec checkTimeouts w1 in
  (exists callback,
     JsMap.get (nextId (self w)) (callbackStorage (self w1)) = Some callback
     /\ cb_expiresAt callback = expiry /\ cb_reject callback = p)
  /\ (time < expiry ->
      promises swept !! p = Some Pending
      /\ JsMap.get (nextId (self w)) (callbackStorage (self swept)) =
           JsMap.get (nextId (self w)) (callbackStorage (self w1)))
  /\ (expiry <= time ->
      promises swept !! p = Some (Rejected (TimeoutError "Timeout error"))
      /\ JsMap.get (nextId (self w)) (callbackStorage (self swept)) = None).
Proof.
  intros Haw p w1 expiry time swept.
  pose proof (send_awaiting address action params w Haw) as Haw1. fold w1 in Haw1.
  assert (Hrun := send_world address action params w). cbv zeta in Hrun.
  set (m := eval (sendRaw address action params true) w) in *.
  assert (Hp : p = length (promises w)) by (subst p; unfold eval; by rewrite Hrun).
  assert (Hexp : req_expiresAt m = expiry) by (subst m; by rewrite sendRaw_message).
  set (new := mkCallback (req_createdAt m) expiry p p action (req_sourceUri m)).
  assert (Hget : JsMap.get (nextId (self w)) (callbackStorage (self w1)) =
                 Some new).
  { subst w1. unfold exec. rewrite Hrun. simpl. rewrite Hexp, <- Hp.
    destruct (self (exec _ w)). simpl. apply get_set_eq. }
  assert (Hpend : promises w1 !! p = Some Pending).
  { subst w1. unfold exec. rewrite Hrun, Hp. simpl. by apply list_lookup_middle. }
  split; [by exists new|]. split.
  - intros Hlt. split.
    + subst swept. rewrite checkTimeouts_run. simpl.
      rewrite loop_promises_other; [done|].
      intros id' cb' _ Hget' Hexpired Heq. simpl in Hget'.
      destruct Haw1 as [_ Hapart].
      assert (id' = nextId (self w)) as -> by by apply (Hapart _ _ cb' new).
      assert (cb' = new) as -> by congruence.
      apply expired_true in Hexpired. simpl in Hexpired. fold time in Hexpired.
      lia.
    + subst swept. rewrite sweep_store, Hget. simpl. fold time.
      by destruct (Z.leb_spec expiry time); [lia|].
  - intros Hle. split.
    + subst swept. rewrite checkTimeouts_run. simpl.
      apply (loop_promises_rejected _ _ _ _ _ (nextId (self w)) new); try done.
      * by apply list_elem_of_In, (get_Some_keys _ new).
      * by apply expired_true.
    + subst swept. rewrite sweep_store, Hget. simpl. fold time.
      by destruct (Z.leb_spec expiry time); [|lia].
Qed.
End Client.

End ClientCoverage.

(** * The system host *)

Module HostCoverage.
Import getSystemHost Coverage.


End HostCoverage.

(** * Concrete runs of the rest *)

Module CoverageRuns.
Import CommunicationClient Notions Scenario Coverage.

Lemma listen_binds_once_witness :
  eval (CommunicationServer.listen pid hostnameOutput osHostname echo)
    serverFresh = None
  /\ CommunicationServer.trace serverListening =
       [Bound (mkSocket pull "server42" "tcp://10.0.0.2:6000");
        Listening (mkSocket pull "server42" "tcp://10.0.0.2:6000")]
  /\ CommunicationServer.listen pid hostnameOutput osHostname echo
       serverListening =
     (Some (Err "Already listening on port 6000"), serverListening).
Proof.
  assert (H : CommunicationServer.listenSocket
                (CommunicationServer.self serverFresh) = None) by reflexivity.
  destruct (ServerCoverage.listen_binds_once pid hostnameOutput osHostname
              echo serverFresh H) as (H1 & _ & _ & _ & H5 & H6).
  split; [exact H1|]. split; [exact H5|exact (H6 echo)].
Defined.

Lemma server_silent_paths_witness :
  CommunicationServer.onMessage
    (CommunicationServer.mkMessage (inl (Err "SyntaxError"))) serverListening =
  (None,
   CommunicationServer.mkWorld (CommunicationServer.self serverListening)
     (CommunicationServer.trace serverListening
      ++ [HandlerCalled (Some (Err "SyntaxError")) None])).
Proof.
  assert (H : CommunicationServer.onRequest
                (CommunicationServer.self serverListening) = Some echo)
    by reflexivity.
  exact (proj1 (ServerCoverage.server_silent_paths pid hostnameOutput
                  osHostname echo serverListening H) (Err "SyntaxError")).
Defined.

Lemma replies_share_channel_witness :
  exists pushSocket setup,
    CommunicationServer.trace
      (exec (CommunicationServer.afterAwait pid hostnameOutput osHostname
               echoRequest (CommunicationServer.Returns (VNum 7)))
         serverListening) =
    CommunicationServer.trace serverListening ++ setup
    ++ [Sent pushSocket
          (Response
             (mkResponse (VNum 7)
                (Some (listenUri hostnameOutput osHostname
                         (CommunicationServer.self serverListening)))
                (req_id echoRequest)))]
    /\ JsMap.get (req_sourceUri echoRequest)
         (CommunicationServer.socketStorage
            (CommunicationServer.self
               (exec (CommunicationServer.afterAwait pid hostnameOutput
                        osHostname echoRequest
                        (CommunicationServer.Returns (VNum 7)))
                  serverListening))) = Some pushSocket.
Proof.
  destruct (ServerCoverage.replies_share_channel pid hostnameOutput osHostname
              echoRequest echoRequest (VNum 7) (VNum 8) serverListening eq_refl)
    as (s & setup & H1 & H2 & _).
  exists s, setup. split; [exact H1 | exact H2].
Defined.

Lemma server_invariant_witness :
  CommunicationServer.port (CommunicationServer.self serverListening) = 6000
  /\ cacheOk (CommunicationServer.getPushSocketIdentity pid)
       (CommunicationServer.socketStorage
          (CommunicationServer.self serverListening)).
Proof.
  assert (H0 : CommunicationServer.constructor serverOptions = inr serverFresh)
    by reflexivity.
  assert (H1 : rtc (serverStep pid hostnameOutput osHostname) serverFresh
                 serverListening).
  { apply rtc_once. apply (server_listen pid hostnameOutput osHostname echo). }
  destruct (ServerCoverage.server_invariant pid hostnameOutput osHostname
              serverOptions serverFresh serverListening H0 H1)
    as (Hp & _ & _ & Hc & _).
  split; [exact Hp | exact Hc].
Defined.

Lemma late_response_dropped_witness :
  exec (onMessage echoReply) (exec (checkTimeouts clock) echoDue) =
  exec (checkTimeouts clock) echoDue.
Proof.
  assert (H1 : JsMap.get (res_id echoResponse) (callbackStorage (self echoDue)) =
               Some (mkCallback 1000 1250 0%nat 0%nat "echo"
                       "tcp://10.0.0.1:5000")) by reflexivity.
  assert (H2 : 1250 <= clock (reads echoDue)) by (vm_compute; discriminate).
  exact (proj1 (ClientCoverage.late_response_dropped clock echoResponse 52 _
                  echoDue H1 H2)).
Defined.

Lemma close_releases_transport_witness :
  self closedWhilePending = setSocketStorage JsMap.empty (self afterSend).
Proof.
  assert (H : NoDup (JsMap.keys (socketStorage (self afterSend)))).
  { apply NoDup_singleton. }
  exact (proj1 (ClientCoverage.close_releases_transport afterSend H)).
Defined.

Lemma afterSend_reached :
  rtc (clientRun pid hostnameOutput osHostname clock) fresh afterSend.
Proof.
  apply rtc_once.
  apply (client_send pid hostnameOutput osHostname clock serverAddress "echo"
           echoParams).
Qed.

Lemma client_invariant_witness :
  0 <= nextId (self afterSend) <= MAX_ID
  /\ cacheOk (getClientSocketIdentity pid) (socketStorage (self afterSend)).
Proof.
  assert (H0 : constructor options = inr fresh) by reflexivity.
  assert (H1 : rtc (clientStep pid hostnameOutput osHostname clock) fresh
                 afterSend).
  { apply rtc_once, client_run.
    apply (client_send pid hostnameOutput osHostname clock serverAddress "echo"
             echoParams). }
  destruct (ClientCoverage.client_invariant pid hostnameOutput osHostname clock
              options fresh afterSend H0 H1) as (_ & Hid & Hc & _).
  split; [exact Hid | exact Hc].
Defined.


Lemma calls_stay_awaited_witness : awaiting afterSend.
Proof.
  assert (H0 : constructor options = inr fresh) by reflexivity.
  exact (ClientCoverage.calls_stay_awaited pid hostnameOutput osHostname clock
           options fresh afterSend H0 afterSend_reached).
Defined.

Lemma fresh_awaiting : awaiting fresh.
Proof. split; intros; discriminate. Qed.

Lemma call_expires_on_schedule_witness :
  exists callback,
    JsMap.get (nextId (self fresh)) (callbackStorage (self afterSend)) =
      Some callback
    /\ cb_expiresAt callback =
         clock (reads fresh)
         + orDefault (timeout echoParams) (defaultTimeout (self fresh))
    /\ cb_reject callback = echoPromise.
Proof.
  exact (proj1 (ClientCoverage.call_expires_on_schedule pid hostnameOutput
                  osHostname clock serverAddress "echo" echoParams fresh
                  fresh_awaiting)).
Defined.
End CoverageRuns.
